(** * Attestation performance of one slot (chaindtools.py)

    A shallow embedding of [attestation_performance] and of the Python
    and library operations it relies on, followed by the properties of
    the decoding step, of the aggregation loop and of the returned
    dictionary. *)

From stdpp Require Import gmap list sorting.

Local Open Scope Z_scope.

(** ** Python values and exceptions *)

(** The only exception the function can raise on well-typed rows is the
    [IndexError] of a list subscript. *)
Inductive exn := IndexError.

Inductive result (A : Type) :=
| Ok (a : A)
| Raise (e : exn).
Arguments Ok {A} a.
Arguments Raise {A} e.

#[global] Instance result_ret : MRet result := λ A a, Ok a.
#[global] Instance result_bind : MBind result := λ A B k r,
  match r with
  | Ok a => k a
  | Raise e => Raise e
  end.

(** A [for] loop whose body may raise: the loop stops at the first
    exception. *)
Fixpoint for_each {S A} (body : S → A → result S) (s : S) (xs : list A)
  : result S :=
  match xs with
  | [] => Ok s
  | x :: xs' => s' ← body s x; for_each body s' xs'
  end.

Module Py.

(** [l[i]] accepts [-len(l) <= i < len(l)]; a negative subscript counts
    from the end of the list. *)
Definition index {A} (l : list A) (i : Z) : option nat :=
  let len := Z.of_nat (length l) in
  if bool_decide (0 ≤ i < len) then Some (Z.to_nat i)
  else if bool_decide (- len ≤ i < 0) then Some (Z.to_nat (i + len))
  else None.

Definition getitem {A} (l : list A) (i : Z) : result A :=
  match index l i with
  | Some k => match l !! k with Some x => Ok x | None => Raise IndexError end
  | None => Raise IndexError
  end.

(** [l[i] = x] *)
Definition setitem {A} (l : list A) (i : Z) (x : A) : result (list A) :=
  match index l i with
  | Some k => Ok (<[k := x]> l)
  | None => Raise IndexError
  end.

Definition enumerate {A} (l : list A) : list (nat * A) :=
  zip (seq 0 (length l)) l.

(** [l[:stop:-1]]: a missing start means the last element; [stop] is
    first shifted by [len(l)] when negative and then clamped to
    [-1 .. len(l) - 1]; the elements at [start, start - 1, ..., stop + 1]
    are returned. *)
Definition slice_back {A} (l : list A) (stop : Z) : list A :=
  let len := Z.of_nat (length l) in
  let start := len - 1 in
  let stop' :=
    if bool_decide (stop < 0)
    then (if bool_decide (stop + len < 0) then -1 else stop + len)
    else (if bool_decide (len ≤ stop) then len - 1 else stop) in
  omap (λ k : nat, l !! Z.to_nat (start - Z.of_nat k))
       (seq 0 (Z.to_nat (start - stop'))).

(** [dict(pairs)]: the pairs are inserted from left to right, so a later
    pair replaces an earlier one with the same key. *)
Definition dict (pairs : list (Z * Z)) : gmap Z Z :=
  foldl (λ m kv, <[kv.1 := kv.2]> m) ∅ pairs.

End Py.

(** ** The [bitlist] package

    [bitlist(b)] for a bytes object [b] holds eight bits per byte, the
    bytes in their order and every byte from its most significant bit
    down, each bit the integer 0 or 1 computed as [(byte >> i) % 2].
    Subscripting with a slice selects from that sequence as from a list
    and builds a new bitlist from the list of the selected bits; a
    bitlist built from an empty list holds the single bit 0.  Iterating
    yields the bits in that order.  The package is not part of the
    repository; the sequence of bits is taken as its value. *)
Module Bitlist.

Definition t := list Z.

Definition of_bytes (argument : list Z) : t :=
  reverse
    (concat
       ((λ byte, (λ i : nat, (byte ≫ Z.of_nat i) `mod` 2) <$> seq 0 8)
          <$> reverse argument)).

(** [bitlist(l)] for a list [l] of bits. *)
Definition of_list (argument : list Z) : t :=
  match argument with
  | [] => [0]
  | _ :: _ => argument
  end.

Definition getslice_back (b : t) (stop : Z) : t :=
  of_list (Py.slice_back b stop).

End Bitlist.

(** Truth value of an integer in a condition. *)
Definition truthy (bit : Z) : bool := negb (bit =? 0).

(** ** Rows handed out by the cursor *)

Record Attestation := {
  f_committee_index : Z;
  f_inclusion_slot : Z;
  f_aggregation_bits : list Z;
  f_beacon_block_root : list Z
}.

(** A row of [SELECT f_canonical FROM t_blocks ...]: a tuple of one
    field. *)
Record BlockRow := { f_canonical : bool }.

(** The cursor answers the three queries of the function: the committees
    of a slot (first column of the rows, in the order of the committee
    index), the attestations of a slot, and the rows of the block with a
    given root.  The order in which the store hands out the attestations
    is not part of the record: a property that depends on it assumes it
    ([ascending] below). *)
Record Cursor := {
  committees_of : Z → list (list Z);
  attestations_of : Z → list Attestation;
  blocks_of : list Z → list BlockRow
}.

Definition fetchone {A} (rows : list A) : option A := head rows.

(** [not row] for the value returned by [fetchone]: [None] is false, and
    a tuple of one field is true whatever the field holds. *)
Definition row_truthy (row : option BlockRow) : bool :=
  match row with
  | Some _ => true
  | None => false
  end.

(** ** Decoding the aggregation bits (line 32) *)

Definition decode_bits (raw : list Z) (committee_size : nat) : list Z :=
  Bitlist.getslice_back (Bitlist.of_bytes (reverse raw))
                        (- (Z.of_nat committee_size + 1)).

(** ** The aggregation loop (lines 19 to 37) *)

(** Lines 19 and 20: one cell per committee position, all -1. *)
Definition initial_performance (committee_lookup : list (list Z))
  : list (list Z) :=
  (λ committee, replicate (length committee) (-1)) <$> committee_lookup.

(** Lines 36 and 37, for one pair of [enumerate(aggregation_bits)].  The
    assignment writes into the row held by the table; line 19 builds a
    row of its own for every committee, so the table afterwards is the
    table with that row replaced. *)
Definition record_bit (committee_index inclusion_distance : Z)
    (committee_performance : list (list Z)) (entry : nat * Z)
  : result (list (list Z)) :=
  let '(committee_position, bit) := entry in
  if truthy bit then
    row ← Py.getitem committee_performance committee_index;
    cell ← Py.getitem row (Z.of_nat committee_position);
    if bool_decide (cell = -1) then
      row' ← Py.setitem row (Z.of_nat committee_position) inclusion_distance;
      Py.setitem committee_performance committee_index row'
    else Ok committee_performance
  else Ok committee_performance.

(** Lines 22 to 37: the body of the loop over the attestations. *)
Definition record_attestation (cursor : Cursor) (slot : Z)
    (committee_lookup : list (list Z))
    (committee_performance : list (list Z)) (attestation : Attestation)
  : result (list (list Z)) :=
  let beacon_root := f_beacon_block_root attestation in
  if negb (row_truthy (fetchone (blocks_of cursor beacon_root)))
  then Ok committee_performance
  else
    let committee_index := f_committee_index attestation in
    committee ← Py.getitem committee_lookup committee_index;
    let committee_size := length committee in
    let inclusion_slot := f_inclusion_slot attestation in
    let inclusion_distance := inclusion_slot - slot - 1 in
    let aggregation_bits :=
      decode_bits (f_aggregation_bits attestation) committee_size in
    for_each (record_bit committee_index inclusion_distance)
             committee_performance (Py.enumerate aggregation_bits).

(** The table after the loop over a sequence of attestations. *)
Definition aggregate (cursor : Cursor) (slot : Z)
    (committee_lookup : list (list Z)) (attestations : list Attestation)
  : result (list (list Z)) :=
  for_each (record_attestation cursor slot committee_lookup)
           (initial_performance committee_lookup) attestations.

(** Lines 40 to 43. *)
Definition flatten_result (committee_lookup committee_performance : list (list Z))
  : gmap Z Z :=
  let validators := concat committee_lookup in
  let performance := concat committee_performance in
  Py.dict (zip validators performance).

(** Lines 19 to 43, on the committees and attestations already fetched. *)
Definition performance_over (cursor : Cursor) (slot : Z)
    (committee_lookup : list (list Z)) (attestations : list Attestation)
  : result (gmap Z Z) :=
  committee_performance ← aggregate cursor slot committee_lookup attestations;
  Ok (flatten_result committee_lookup committee_performance).

Definition attestation_performance (cursor : Cursor) (slot : Z)
  : result (gmap Z Z) :=
  let committee_lookup := committees_of cursor slot in
  let attestations := attestations_of cursor slot in
  performance_over cursor slot committee_lookup attestations.

(** ** The distribution of outages (lines 46 to 60)

    The comparison of a participation rate with the threshold is a
    parameter: the rates are floating-point numbers, and nothing below
    depends on what the comparison answers. *)
Module Outage.

Inductive error := UnboundLocalError | NameError.

Inductive outcome (A : Type) :=
| Return (a : A)
| Throw (e : error).
Arguments Return {A} a.
Arguments Throw {A} e.

(** The local variables of the function; [longest_run] is not bound
    before its first assignment. *)
Record frame := {
  run_length : Z;
  distribution : gmap Z Z;
  longest_run : option Z
}.

(** Lines 50 to 58: the body of the loop.  Line 54 assigns through the
    name [dsitribution], which is bound nowhere; line 58 reads
    [longest_run] before it assigns it. *)
Definition body {R} (gt : R → R → bool) (min_participation : R)
    (f : frame) (participation_rate : R) : outcome frame :=
  if gt participation_rate min_participation
     && bool_decide (0 < run_length f)
  then
    match distribution f !! run_length f with
    | Some count =>
        Return {| run_length := 0;
                  distribution := <[run_length f := count + 1]> (distribution f);
                  longest_run := longest_run f |}
    | None => Throw NameError
    end
  else
    let run_length' := run_length f + 1 in
    match longest_run f with
    | None => Throw UnboundLocalError
    | Some longest =>
        Return {| run_length := run_length';
                  distribution := distribution f;
                  longest_run :=
                    Some (if bool_decide (longest < run_length')
                          then run_length' else longest) |}
    end.

Fixpoint loop {R} (gt : R → R → bool) (min_participation : R)
    (f : frame) (history : list R) : outcome frame :=
  match history with
  | [] => Return f
  | participation_rate :: history' =>
      match body gt min_participation f participation_rate with
      | Return f' => loop gt min_participation f' history'
      | Throw e => Throw e
      end
  end.

Definition outage_distribution {R} (gt : R → R → bool)
    (participation_rate_history : list R) (min_participation : R)
  : outcome (gmap Z Z) :=
  match loop gt min_participation
          {| run_length := 0; distribution := ∅; longest_run := None |}
          participation_rate_history with
  | Return f => Return (distribution f)
  | Throw e => Throw e
  end.

End Outage.

(** ** The packed format and the decoder as the specification words it *)

(** The bits of one byte, least significant first. *)
Definition byte_bits (byte : Z) : list Z :=
  (λ i : nat, (byte ≫ Z.of_nat i) `mod` 2) <$> seq 0 8.

(** The last [n] elements of a sequence (all of it when it is shorter). *)
Definition last_n {A} (n : nat) (l : list A) : list A :=
  drop (length l - n)%nat l.

(** The decoder in the words of the specification: reverse the bytes,
    read them as a bit sequence, take the last [n] bits in reverse
    order. *)
Definition decode_spec (raw : list Z) (n : nat) : list Z :=
  reverse (last_n n (Bitlist.of_bytes (reverse raw))).

(** The byte whose bits, least significant first, are [bs]. *)
Definition byte_of_bits (bs : list bool) : Z :=
  foldr (λ b acc, Z.b2z b + 2 * acc) 0 bs.

(** Modelled from the spec: the serialization that produces the packed
    bit-vector is outside the repository.  The logical bits are followed
    by one delimiter bit, and the payload is cut into bytes, least
    significant bit first, the last byte padded with zero bits. *)
Definition ssz_pack (bs : list bool) : list Z :=
  let payload := bs ++ [true] in
  (λ j : nat, byte_of_bits (take 8 (drop (8 * j)%nat payload)))
    <$> seq 0 (length bs `div` 8 + 1)%nat.

(** The vector in which only logical position 0 is set. *)
Definition only_first (n : nat) : list bool :=
  match n with
  | O => []
  | S m => true :: replicate m false
  end.

(** ** Vocabulary of the properties *)

Definition inclusion_distance (slot : Z) (a : Attestation) : Z :=
  f_inclusion_slot a - slot - 1.

(** The test of lines 23 and 24: the attestation is processed when the
    query for its root returns a row. *)
Definition selected (cursor : Cursor) (a : Attestation) : bool :=
  row_truthy (fetchone (blocks_of cursor (f_beacon_block_root a))).

(** The canonical flag of the block the attestation refers to; a root
    without a block is not canonical. *)
Definition canonical (cursor : Cursor) (a : Attestation) : bool :=
  match fetchone (blocks_of cursor (f_beacon_block_root a)) with
  | Some row => f_canonical row
  | None => false
  end.

(** Every block row fetched for the attestations carries a true flag. *)
Definition rows_canonical (cursor : Cursor) (attestations : list Attestation)
  : Prop :=
  Forall (λ a, selected cursor a = canonical cursor a) attestations.

(** The decoded bit-vector of [a] marks position [pos] of the committee
    with number [i] of the lookup. *)
Definition marks (committee_lookup : list (list Z)) (a : Attestation)
    (i pos : nat) : bool :=
  match Py.index committee_lookup (f_committee_index a),
        committee_lookup !! i with
  | Some k, Some committee =>
      bool_decide (k = i)
      && from_option truthy false
           (decode_bits (f_aggregation_bits a) (length committee) !! pos)
  | _, _ => false
  end.

Definition cell (committee_performance : list (list Z)) (i pos : nat)
  : option Z :=
  committee_performance !! i ≫= (.!! pos).

(** The table has one row per committee and one cell per member. *)
Definition same_shape (committee_lookup committee_performance : list (list Z))
  : Prop :=
  Forall2 (λ committee row, length committee = length row)
          committee_lookup committee_performance.

(** Lines 36 and 37 on one row, as a function of the row. *)
Fixpoint mark_row (distance : Z) (bits : list Z) (row : list Z) : list Z :=
  match bits, row with
  | bit :: bits', x :: row' =>
      (if truthy bit && bool_decide (x = -1) then distance else x)
        :: mark_row distance bits' row'
  | _, _ => row
  end.

(** The value of a cell after a sequence of distances was offered to
    it. *)
Fixpoint settle (x : Z) (distances : list Z) : Z :=
  match distances with
  | [] => x
  | d :: distances' => settle (if bool_decide (x = -1) then d else x) distances'
  end.

(** The attestations that reach the cell, in processing order. *)
Definition hits (cursor : Cursor) (committee_lookup : list (list Z))
    (i pos : nat) (attestations : list Attestation) : list Attestation :=
  filter (λ a, selected cursor a && marks committee_lookup a i pos = true)
         attestations.

(** The committee index of every attestation the loop processes is a
    valid subscript of the lookup. *)
Definition indices_resolve (cursor : Cursor)
    (committee_lookup : list (list Z)) (attestations : list Attestation)
  : Prop :=
  Forall (λ a, selected cursor a = true →
               Py.index committee_lookup (f_committee_index a) ≠ None)
         attestations.

Definition ascending (attestations : list Attestation) : Prop :=
  Sorted (λ a b, f_inclusion_slot a ≤ f_inclusion_slot b) attestations.

(** Validator [v] sits at position [pos] of committee [i] and nowhere
    later in the flattening order. *)
Definition last_occurrence (committee_lookup : list (list Z)) (v : Z)
    (i pos : nat) : Prop :=
  ∃ before members after later,
    committee_lookup = before ++ (members ++ v :: after) :: later
    ∧ length before = i ∧ length members = pos
    ∧ (v ∉ after) ∧ (v ∉ concat later).

(** [d] is the least inclusion distance among the canonical attestations
    that mark the cell. *)
Definition minimum_distance (cursor : Cursor) (slot : Z)
    (committee_lookup : list (list Z)) (attestations : list Attestation)
    (i pos : nat) (d : Z) : Prop :=
  (∃ a, a ∈ attestations ∧ canonical cursor a = true
        ∧ marks committee_lookup a i pos = true
        ∧ inclusion_distance slot a = d)
  ∧ ∀ a, a ∈ attestations → canonical cursor a = true →
         marks committee_lookup a i pos = true →
         d ≤ inclusion_distance slot a.

(** ** Concrete stores

    Slot 10 throughout.  A store is given by its committees, its
    attestations and the table of blocks as pairs of a root and the
    canonical flag. *)

Definition store (committees : list (list Z)) (attestations : list Attestation)
    (blocks : list (list Z * bool)) : Cursor :=
  {| committees_of := λ _, committees;
     attestations_of := λ _, attestations;
     blocks_of := λ root,
       (λ b, {| f_canonical := b.2 |}) <$> filter (λ b, b.1 = root) blocks |}.

Definition vote (committee_index inclusion_slot : Z) (bits root : list Z)
  : Attestation :=
  {| f_committee_index := committee_index;
     f_inclusion_slot := inclusion_slot;
     f_aggregation_bits := bits;
     f_beacon_block_root := root |}.

(** The scenario of the specification: validators 7 and 9, a vote on a
    known block two slots later for position 0, and a vote on an unknown
    root one slot later for both positions. *)
Definition scenario_store : Cursor :=
  store [[7; 9]] [vote 0 11 [7] [170]; vote 0 12 [5] [187]] [([187], true)].

(** One validator, one vote for it on a block whose row carries [flag]. *)
Definition flagged_store (flag : bool) : Cursor :=
  store [[7]] [vote 0 11 [3] [187]] [([187], flag)].

(** Two canonical votes for the same validator, the first included in
    the slot itself. *)
Definition sentinel_store : Cursor :=
  store [[7]] [vote 0 10 [3] [187]; vote 0 13 [3] [187]] [([187], true)].

(** A committee of nine and a canonical vote whose vector is one byte. *)
Definition short_store : Cursor :=
  store [[1; 2; 3; 4; 5; 6; 7; 8; 9]] [vote 0 11 [1] [187]] [([187], true)].


(** A canonical vote that names committee 5 where one committee exists. *)
Definition unknown_index_store : Cursor :=
  store [[7]] [vote 5 11 [3] [187]] [([187], true)].

(** No committee, one canonical vote. *)
Definition empty_lookup_store : Cursor :=
  store [] [vote 0 11 [3] [187]] [([187], true)].

(** No committee, one vote on an unknown root. *)
Definition empty_lookup_unknown_root_store : Cursor :=
  store [] [vote 0 11 [3] [170]] [([187], true)].

(** A canonical vote included two slots before the slot it votes for. *)
Definition early_store : Cursor :=
  store [[7]] [vote 0 8 [3] [187]] [([187], true)].

(** Validator 7 listed twice in one committee, a canonical vote for
    position 0 only. *)
Definition duplicate_store : Cursor :=
  store [[7; 7]] [vote 0 11 [5] [187]] [([187], true)].

(** * Properties *)

(** ** The decoder *)

Section Decoder.

Lemma omap_back_take {A} (l : list A) (c : nat) :
  (c ≤ length l)%nat →
  omap (λ k : nat, l !! Z.to_nat (Z.of_nat (length l) - 1 - Z.of_nat k))
       (seq 0 c)
  = take c (reverse l).
Proof.
  induction c as [|c IH]; intros Hc; [done|].
  rewrite seq_S, omap_app, IH by lia. simpl.
  destruct (lookup_lt_is_Some_2 l (length l - S c)%nat) as [x Hx]; [lia|].
  replace (Z.to_nat (Z.of_nat (length l) - 1 - Z.of_nat c))
    with (length l - S c)%nat by lia.
  rewrite Hx.
  rewrite (take_S_r _ _ x); [done|].
  rewrite reverse_lookup by lia. done.
Qed.

Lemma slice_back_take {A} (l : list A) (n : nat) :
  Py.slice_back l (- (Z.of_nat n + 1)) = take n (reverse l).
Proof.
  unfold Py.slice_back.
  rewrite bool_decide_eq_true_2 by lia.
  case_bool_decide.
  - replace (Z.to_nat (Z.of_nat (length l) - 1 - -1)) with (length l) by lia.
    rewrite omap_back_take by lia.
    rewrite !take_ge; rewrite ?length_reverse; [done|lia..].
  - replace (Z.to_nat (Z.of_nat (length l) - 1
                       - (- (Z.of_nat n + 1) + Z.of_nat (length l))))
      with n by lia.
    apply omap_back_take. lia.
Qed.

Lemma decode_bits_take (raw : list Z) (n : nat) :
  decode_bits raw n = Bitlist.of_list (take n (concat (byte_bits <$> raw))).
Proof.
  unfold decode_bits, Bitlist.getslice_back, Bitlist.of_bytes.
  rewrite slice_back_take, !reverse_involutive. done.
Qed.

Lemma length_byte_bits (byte : Z) : length (byte_bits byte) = 8%nat.
Proof. done. Qed.

Lemma length_concat_byte_bits (raw : list Z) :
  length (concat (byte_bits <$> raw)) = (8 * length raw)%nat.
Proof.
  induction raw as [|b raw IH]; [done|].
  rewrite fmap_cons, concat_cons, length_app, IH, length_byte_bits.
  simpl. lia.
Qed.

Lemma take_bits_nonempty (raw : list Z) (n : nat) :
  (1 ≤ n)%nat → raw ≠ [] → take n (concat (byte_bits <$> raw)) ≠ [].
Proof.
  intros Hn Hraw Hnil. apply (f_equal length) in Hnil.
  rewrite length_take, length_concat_byte_bits in Hnil.
  destruct raw; [done|]. simpl in Hnil. lia.
Qed.

(** With at least one bit selected the decoded sequence is the
    selection. *)
Lemma decode_bits_filled (raw : list Z) (n : nat) :
  (1 ≤ n)%nat → raw ≠ [] →
  decode_bits raw n = take n (concat (byte_bits <$> raw)).
Proof.
  intros Hn Hraw. rewrite decode_bits_take.
  pose proof (take_bits_nonempty raw n Hn Hraw).
  by destruct (take n _).
Qed.

(** With nothing selected it is the single bit 0. *)
Lemma decode_bits_nothing (raw : list Z) (n : nat) :
  n = 0%nat ∨ raw = [] → decode_bits raw n = [0].
Proof.
  intros [->| ->]; rewrite decode_bits_take; [done|]. by destruct n.
Qed.

Lemma length_decode_bits (raw : list Z) (n : nat) :
  length (decode_bits raw n) = (1 `max` (n `min` (8 * length raw)))%nat.
Proof.
  destruct (decide (n = 0%nat)) as [->|Hn].
  { by rewrite decode_bits_nothing by by left. }
  destruct (decide (raw = [])) as [->|Hraw].
  { rewrite decode_bits_nothing by by right. simpl. lia. }
  rewrite decode_bits_filled, length_take, length_concat_byte_bits
    by (done || lia).
  destruct raw; [done|]. simpl. lia.
Qed.

(** The bit 0 that stands for an empty selection is false: for the test
    of line 36 the decoded sequence and the selection agree. *)
Lemma truthy_lookup_decode_bits (raw : list Z) (n pos : nat) :
  from_option truthy false (decode_bits raw n !! pos)
  = from_option truthy false (take n (concat (byte_bits <$> raw)) !! pos).
Proof.
  rewrite decode_bits_take.
  destruct (take n _); [|done]. by destruct pos.
Qed.

Lemma lookup_byte_bits (byte : Z) (t : nat) :
  (t < 8)%nat →
  byte_bits byte !! t = Some ((byte ≫ Z.of_nat t) `mod` 2).
Proof.
  intros Ht. unfold byte_bits.
  rewrite list_lookup_fmap, lookup_seq_lt by done. done.
Qed.

Lemma lookup_concat_byte_bits (raw : list Z) (q t : nat) (byte : Z) :
  (t < 8)%nat → raw !! q = Some byte →
  concat (byte_bits <$> raw) !! (8 * q + t)%nat
  = Some ((byte ≫ Z.of_nat t) `mod` 2).
Proof.
  revert q. induction raw as [|b raw IH]; intros q Ht Hq; [done|].
  rewrite fmap_cons, concat_cons.
  destruct q as [|q].
  - cbn in Hq. simplify_eq. rewrite lookup_app_l by (rewrite length_byte_bits; lia).
    replace (8 * 0 + t)%nat with t by lia. by apply lookup_byte_bits.
  - rewrite lookup_app_r by (rewrite length_byte_bits; lia).
    rewrite length_byte_bits.
    replace (8 * S q + t - 8)%nat with (8 * q + t)%nat by lia.
    by apply IH.
Qed.

(** Output position [i] is bit [i mod 8] of byte [i div 8]. *)
Lemma lookup_decode_bits (raw : list Z) (n i : nat) (byte : Z) :
  (i < n)%nat → raw !! (i `div` 8)%nat = Some byte →
  decode_bits raw n !! i
  = Some ((byte ≫ Z.of_nat (i `mod` 8)%nat) `mod` 2).
Proof.
  intros Hi Hb.
  rewrite decode_bits_filled by (lia || by intros ->).
  rewrite lookup_take_lt by done.
  rewrite (Nat.div_mod_eq i 8) at 1.
  apply lookup_concat_byte_bits; [|done].
  apply Nat.mod_upper_bound. done.
Qed.

Lemma decode_spec_take (raw : list Z) (n : nat) :
  decode_spec raw n = take n (concat (byte_bits <$> raw)).
Proof.
  unfold decode_spec, last_n, Bitlist.of_bytes.
  rewrite reverse_involutive, drop_reverse, reverse_involutive.
  rewrite length_reverse.
  set (B := concat _).
  destruct (decide (n ≤ length B)%nat).
  - f_equal. lia.
  - rewrite !take_ge by lia. done.
Qed.

Lemma decode_bits_spec (raw : list Z) (n : nat) :
  decode_bits raw n = Bitlist.of_list (decode_spec raw n).
Proof. by rewrite decode_bits_take, decode_spec_take. Qed.

Lemma shiftr_bit (byte : Z) (t : nat) :
  (byte ≫ Z.of_nat t) `mod` 2 = Z.b2z (Z.testbit byte (Z.of_nat t)).
Proof.
  rewrite Z.shiftr_div_pow2 by lia.
  symmetry. apply Z.testbit_spec'. lia.
Qed.

Lemma testbit_byte_of_bits (c : list bool) (t : nat) :
  Z.testbit (byte_of_bits c) (Z.of_nat t) = default false (c !! t).
Proof.
  revert t. induction c as [|b c IH]; intros t.
  - simpl. apply Z.testbit_0_l.
  - simpl. rewrite (Z.add_comm (Z.b2z b)).
    destruct t as [|t].
    + apply Z.testbit_0_r.
    + rewrite Nat2Z.inj_succ, Z.testbit_succ_r by lia. apply IH.
Qed.

Lemma truthy_b2z (b : bool) : truthy (Z.b2z b) = b.
Proof. by destruct b. Qed.

Lemma length_ssz_pack (bs : list bool) :
  length (ssz_pack bs) = (length bs `div` 8 + 1)%nat.
Proof. unfold ssz_pack. by rewrite length_fmap, length_seq. Qed.

Lemma lookup_ssz_pack (bs : list bool) (q : nat) :
  (q < length bs `div` 8 + 1)%nat →
  ssz_pack bs !! q
  = Some (byte_of_bits (take 8 (drop (8 * q)%nat (bs ++ [true])))).
Proof.
  intros Hq. unfold ssz_pack.
  rewrite list_lookup_fmap, lookup_seq_lt by done. done.
Qed.

(** Decoding a packed vector against its logical length gives the
    logical bits back. *)
Lemma decode_ssz_pack (bs : list bool) :
  bs ≠ [] →
  truthy <$> decode_bits (ssz_pack bs) (length bs) = bs.
Proof.
  intros Hbs.
  assert (1 ≤ length bs)%nat as Hlen1 by (destruct bs; [done|simpl; lia]).
  pose proof (Nat.div_mod_eq (length bs) 8) as Hdm.
  pose proof (Nat.mod_upper_bound (length bs) 8 ltac:(lia)) as Hm.
  apply (list_eq_same_length _ _ (length bs)); [done| |].
  { rewrite length_fmap, length_decode_bits, length_ssz_pack. lia. }
  intros i x y Hi Hx Hy.
  assert (i `div` 8 < length bs `div` 8 + 1)%nat as Hq.
  { assert (i `div` 8 ≤ length bs `div` 8)%nat
      by (apply Nat.Div0.div_le_mono; lia).
    lia. }
  rewrite list_lookup_fmap,
    (lookup_decode_bits _ _ _ _ Hi (lookup_ssz_pack _ _ Hq)) in Hx.
  pose proof (Nat.div_mod_eq i 8) as Hidm.
  pose proof (Nat.mod_upper_bound i 8 ltac:(lia)) as Him.
  remember (i `div` 8)%nat as q. remember (i `mod` 8)%nat as t.
  injection Hx as <-.
  rewrite shiftr_bit, testbit_byte_of_bits, truthy_b2z.
  rewrite lookup_take_lt, lookup_drop by lia.
  match goal with
  | |- context [ (bs ++ [true]) !! ?k ] => replace k with i by lia
  end.
  rewrite lookup_app_l, Hy by done. done.
Qed.

End Decoder.

(** ** One attestation *)

Section Step.

Lemma index_lt {A} (l : list A) (i : Z) (k : nat) :
  Py.index l i = Some k → (k < length l)%nat.
Proof.
  unfold Py.index. intros H.
  repeat case_bool_decide; simplify_eq; lia.
Qed.

Lemma index_nat {A} (l : list A) (k : nat) :
  (k < length l)%nat → Py.index l (Z.of_nat k) = Some k.
Proof.
  intros Hk. unfold Py.index.
  rewrite bool_decide_eq_true_2 by lia. f_equal. lia.
Qed.

Lemma index_same_length {A B} (l : list A) (l' : list B) (i : Z) :
  length l = length l' → Py.index l i = Py.index l' i.
Proof. unfold Py.index. by intros ->. Qed.

Lemma index_None {A} (l : list A) (i : Z) :
  Py.index l i = None ↔ (i < - Z.of_nat (length l) ∨ Z.of_nat (length l) ≤ i).
Proof.
  unfold Py.index. repeat case_bool_decide; split; intros; (done || lia).
Qed.

Lemma getitem_Ok {A} (l : list A) (i : Z) (k : nat) (x : A) :
  Py.index l i = Some k → l !! k = Some x → Py.getitem l i = Ok x.
Proof. unfold Py.getitem. by intros -> ->. Qed.

Lemma getitem_Raise {A} (l : list A) (i : Z) :
  Py.index l i = None → Py.getitem l i = Raise IndexError.
Proof. unfold Py.getitem. by intros ->. Qed.

Lemma record_bit_insert (ci d : Z) (perf : list (list Z)) (k off : nat)
    (row : list Z) (bit x : Z) :
  Py.index perf ci = Some k → perf !! k = Some row → row !! off = Some x →
  record_bit ci d perf (off, bit)
  = Ok (<[k := <[off := if truthy bit && bool_decide (x = -1) then d else x]>
                row]> perf).
Proof.
  intros Hk Hrow Hx. unfold record_bit.
  assert (<[k := <[off := x]> row]> perf = perf) as Hid.
  { rewrite (list_insert_id row) by done. by apply list_insert_id. }
  destruct (truthy bit); simpl; [|by rewrite Hid].
  rewrite (getitem_Ok _ _ _ _ Hk Hrow). simpl.
  rewrite (getitem_Ok row (Z.of_nat off) off x);
    [|by apply index_nat, lookup_lt_is_Some_1|done].
  simpl. case_bool_decide; [|by rewrite Hid].
  unfold Py.setitem.
  rewrite index_nat by by apply lookup_lt_is_Some_1.
  simpl. by rewrite Hk.
Qed.

Lemma record_bits_row (ci d : Z) (bits : list Z) :
  ∀ (perf : list (list Z)) (k off : nat) (row : list Z),
    Py.index perf ci = Some k → perf !! k = Some row →
    (off + length bits ≤ length row)%nat →
    for_each (record_bit ci d) perf (zip (seq off (length bits)) bits)
    = Ok (<[k := take off row ++ mark_row d bits (drop off row)]> perf).
Proof.
  induction bits as [|bit bits IH]; intros perf k off row Hk Hrow Hlen.
  - simpl. rewrite take_drop, list_insert_id by done. done.
  - simpl in Hlen.
    destruct (lookup_lt_is_Some_2 row off) as [x Hx]; [lia|].
    cbn [length seq zip zip_with for_each].
    rewrite (record_bit_insert _ _ _ _ _ _ _ _ Hk Hrow Hx).
    set (v := if truthy bit && bool_decide (x = -1) then d else x).
    change (Ok ?a ≫= ?f) with (f a). cbv beta.
    rewrite (IH _ k (S off) (<[off := v]> row)).
    + rewrite list_insert_insert_eq. do 2 f_equal.
      rewrite (drop_S row x off Hx). cbn [mark_row]. fold v.
      rewrite drop_insert_lt by lia.
      rewrite (take_S_r _ _ v)
        by (apply list_lookup_insert_eq; by apply lookup_lt_is_Some_1).
      rewrite take_insert_ge by lia.
      by rewrite <- app_assoc.
    + rewrite <- Hk. apply index_same_length, length_insert.
    + apply list_lookup_insert_eq. by apply lookup_lt_is_Some_1.
    + rewrite length_insert. lia.
Qed.

Lemma lookup_mark_row (d : Z) (bits row : list Z) (pos : nat) :
  mark_row d bits row !! pos
  = (λ x, if from_option truthy false (bits !! pos) && bool_decide (x = -1)
          then d else x) <$> row !! pos.
Proof.
  revert row pos. induction bits as [|bit bits IH]; intros row pos.
  - simpl. by destruct (row !! pos).
  - destruct row as [|x row]; [reflexivity|].
    destruct pos as [|pos]; [reflexivity|]. exact (IH row pos).
Qed.

Lemma length_mark_row (d : Z) (bits row : list Z) :
  length (mark_row d bits row) = length row.
Proof.
  revert row. induction bits as [|bit bits IH]; intros [|x row]; simpl; auto.
Qed.

Context (cursor : Cursor) (slot : Z) (committee_lookup : list (list Z)).

Lemma record_attestation_skip perf a :
  selected cursor a = false →
  record_attestation cursor slot committee_lookup perf a = Ok perf.
Proof. unfold selected, record_attestation. by intros ->. Qed.

Lemma record_attestation_raise perf a :
  selected cursor a = true →
  Py.index committee_lookup (f_committee_index a) = None →
  record_attestation cursor slot committee_lookup perf a = Raise IndexError.
Proof.
  unfold selected, record_attestation. intros -> Hi. simpl.
  by rewrite (getitem_Raise _ _ Hi).
Qed.

Lemma record_attestation_marked perf a k committee row :
  selected cursor a = true →
  Py.index committee_lookup (f_committee_index a) = Some k →
  committee_lookup !! k = Some committee →
  perf !! k = Some row →
  length committee_lookup = length perf →
  length committee = length row →
  record_attestation cursor slot committee_lookup perf a
  = Ok (<[k := mark_row (inclusion_distance slot a)
                  (decode_bits (f_aggregation_bits a) (length committee))
                  row]> perf).
Proof.
  unfold selected, record_attestation. intros -> Hk Hc Hrow Hlen Hsize. simpl.
  rewrite (getitem_Ok _ _ _ _ Hk Hc). simpl.
  unfold Py.enumerate.
  set (raw := f_aggregation_bits a).
  destruct (decide (length committee = 0%nat ∨ raw = [])) as [Hnone|Hsome].
  - rewrite (decode_bits_nothing _ _ Hnone).
    replace (mark_row (inclusion_distance slot a) [0] row) with row
      by by destruct row.
    by rewrite list_insert_id.
  - rewrite (record_bits_row _ _ _ perf k 0 row); [done| |done|].
    + rewrite <- Hk. symmetry. by apply index_same_length.
    + rewrite length_decode_bits. destruct raw; [by destruct Hsome; right|].
      simpl. lia.
Qed.

Lemma marks_resolved a k committee pos :
  Py.index committee_lookup (f_committee_index a) = Some k →
  committee_lookup !! k = Some committee →
  marks committee_lookup a k pos
  = from_option truthy false
      (decode_bits (f_aggregation_bits a) (length committee) !! pos).
Proof.
  unfold marks. intros -> ->. by rewrite bool_decide_eq_true_2.
Qed.

Lemma marks_other a k i pos :
  Py.index committee_lookup (f_committee_index a) = Some k → i ≠ k →
  marks committee_lookup a i pos = false.
Proof.
  unfold marks. intros -> Hne.
  destruct (committee_lookup !! i); [|done].
  by rewrite bool_decide_eq_false_2.
Qed.

(** What one pass of the loop body does to every cell. *)
Lemma record_attestation_cell perf perf' a :
  same_shape committee_lookup perf →
  record_attestation cursor slot committee_lookup perf a = Ok perf' →
  same_shape committee_lookup perf'
  ∧ ∀ i pos,
      cell perf' i pos
      = (λ x, if selected cursor a && marks committee_lookup a i pos
                 && bool_decide (x = -1)
              then inclusion_distance slot a else x) <$> cell perf i pos.
Proof.
  intros Hshape Hrun.
  destruct (selected cursor a) eqn:Hsel.
  2:{ rewrite record_attestation_skip in Hrun by done. simplify_eq.
      split; [done|]. intros i pos. simpl. by destruct (cell perf' i pos). }
  destruct (Py.index committee_lookup (f_committee_index a)) as [k|] eqn:Hk.
  2:{ by rewrite record_attestation_raise in Hrun. }
  destruct (lookup_lt_is_Some_2 committee_lookup k) as [committee Hc];
    [by eapply index_lt|].
  destruct (Forall2_lookup_l _ _ _ _ _ Hshape Hc) as (row & Hrow & Hsize).
  rewrite (record_attestation_marked _ _ _ _ _ Hsel Hk Hc Hrow) in Hrun;
    [|by eapply Forall2_length|done].
  simplify_eq. split.
  - rewrite <- (list_insert_id committee_lookup k committee) by done.
    apply Forall2_insert; [done|]. by rewrite length_mark_row.
  - intros i pos. unfold cell. destruct (decide (i = k)) as [->|Hne].
    + rewrite list_lookup_insert_eq by by eapply lookup_lt_is_Some_1.
      rewrite Hrow. simpl. rewrite lookup_mark_row.
      by rewrite (marks_resolved _ _ _ _ Hk Hc).
    + rewrite list_lookup_insert_ne by done.
      rewrite (marks_other _ _ _ _ Hk Hne), andb_false_r. simpl.
      by destruct (perf !! i ≫= (.!! pos)).
Qed.

End Step.

(** ** The loop over the attestations *)

Section Loop.

Context (cursor : Cursor) (slot : Z) (committee_lookup : list (list Z)).

Lemma settle_frozen x ds : x ≠ -1 → settle x ds = x.
Proof.
  revert x. induction ds as [|d ds IH]; intros x Hx; [done|].
  simpl. rewrite bool_decide_eq_false_2 by done. by apply IH.
Qed.

Lemma settle_offered x ds :
  settle x ds = x ∨ (x = -1 ∧ settle x ds ∈ ds).
Proof.
  revert x. induction ds as [|d ds IH]; intros x; [by left|].
  simpl. case_bool_decide as Hx.
  - right. split; [done|].
    destruct (IH d) as [->|[_ ?]]; [left|right]; done.
  - left. by apply settle_frozen.
Qed.

Lemma hits_cons i pos a atts :
  hits cursor committee_lookup i pos (a :: atts)
  = if selected cursor a && marks committee_lookup a i pos
    then a :: hits cursor committee_lookup i pos atts
    else hits cursor committee_lookup i pos atts.
Proof.
  unfold hits. rewrite filter_cons.
  destruct (selected cursor a && marks committee_lookup a i pos);
    by case_decide.
Qed.

Lemma elem_of_hits i pos a atts :
  a ∈ hits cursor committee_lookup i pos atts
  ↔ a ∈ atts ∧ selected cursor a = true
    ∧ marks committee_lookup a i pos = true.
Proof.
  unfold hits. rewrite list_elem_of_filter, andb_true_iff. tauto.
Qed.

(** Every cell ends at the first distance other than -1 offered to it
    by an attestation that reaches it. *)
Lemma run_cell atts :
  ∀ perf perf',
    same_shape committee_lookup perf →
    for_each (record_attestation cursor slot committee_lookup) perf atts
    = Ok perf' →
    same_shape committee_lookup perf'
    ∧ ∀ i pos,
        cell perf' i pos
        = (λ x, settle x (inclusion_distance slot
                            <$> hits cursor committee_lookup i pos atts))
            <$> cell perf i pos.
Proof.
  induction atts as [|a atts IH]; intros perf perf' Hshape Hrun.
  - simpl in Hrun. simplify_eq. split; [done|].
    intros i pos. simpl. by destruct (cell perf' i pos).
  - simpl in Hrun.
    destruct (record_attestation cursor slot committee_lookup perf a)
      as [perf1|] eqn:Hstep; [|done].
    destruct (record_attestation_cell _ _ _ _ _ _ Hshape Hstep)
      as [Hshape1 Hcell1].
    destruct (IH _ _ Hshape1 Hrun) as [Hshape' Hcell'].
    split; [done|]. intros i pos.
    rewrite Hcell', Hcell1, hits_cons.
    destruct (cell perf i pos) as [x|]; [|done]. simpl. f_equal.
    destruct (selected cursor a && marks committee_lookup a i pos); simpl.
    + done.
    + done.
Qed.

Lemma run_raise atts perf :
  Exists (λ a, selected cursor a = true
               ∧ Py.index committee_lookup (f_committee_index a) = None)
         atts →
  for_each (record_attestation cursor slot committee_lookup) perf atts
  = Raise IndexError.
Proof.
  intros Hex. revert perf.
  induction Hex as [a atts [Hsel Hk]|a atts _ IH]; intros perf; simpl.
  - by rewrite record_attestation_raise.
  - destruct (record_attestation _ _ _ _ _) as [perf1|[]]; [apply IH|done].
Qed.

Lemma run_ok atts :
  ∀ perf,
    same_shape committee_lookup perf →
    Forall (λ a, selected cursor a = true →
                 Py.index committee_lookup (f_committee_index a) ≠ None)
           atts →
    ∃ perf',
      for_each (record_attestation cursor slot committee_lookup) perf atts
      = Ok perf'.
Proof.
  induction atts as [|a atts IH]; intros perf Hshape Hall; [by eexists|].
  apply Forall_cons in Hall as [Ha Hall]. simpl.
  assert (∃ perf1, record_attestation cursor slot committee_lookup perf a
                   = Ok perf1) as [perf1 Hstep].
  { destruct (selected cursor a) eqn:Hsel.
    2:{ eexists. by apply record_attestation_skip. }
    destruct (Py.index committee_lookup (f_committee_index a))
      as [k|] eqn:Hk; [|by destruct Ha].
    destruct (lookup_lt_is_Some_2 committee_lookup k) as [committee Hc];
      [by eapply index_lt|].
    destruct (Forall2_lookup_l _ _ _ _ _ Hshape Hc) as (row & Hrow & Hsize).
    eexists. eapply record_attestation_marked; [done..| |done].
    by eapply Forall2_length. }
  rewrite Hstep. simpl.
  apply IH; [|done].
  by destruct (record_attestation_cell _ _ _ _ _ _ Hshape Hstep).
Qed.

Lemma initial_same_shape :
  same_shape committee_lookup (initial_performance committee_lookup).
Proof.
  unfold same_shape, initial_performance.
  apply Forall2_fmap_r, Forall_Forall2_diag, Forall_forall.
  intros c _. simpl. by rewrite length_replicate.
Qed.

Lemma initial_cell i pos committee :
  committee_lookup !! i = Some committee → (pos < length committee)%nat →
  cell (initial_performance committee_lookup) i pos = Some (-1).
Proof.
  intros Hc Hpos. unfold cell, initial_performance.
  rewrite list_lookup_fmap, Hc. simpl.
  by apply lookup_replicate_2.
Qed.

Lemma aggregate_cell atts perf i pos committee :
  aggregate cursor slot committee_lookup atts = Ok perf →
  committee_lookup !! i = Some committee → (pos < length committee)%nat →
  cell perf i pos
  = Some (settle (-1) (inclusion_distance slot
                         <$> hits cursor committee_lookup i pos atts)).
Proof.
  intros Hrun Hc Hpos.
  destruct (run_cell _ _ _ initial_same_shape Hrun) as [_ Hcell].
  by rewrite Hcell, (initial_cell _ _ _ Hc Hpos).
Qed.

Lemma aggregate_same_shape atts perf :
  aggregate cursor slot committee_lookup atts = Ok perf →
  same_shape committee_lookup perf.
Proof.
  intros Hrun. by destruct (run_cell _ _ _ initial_same_shape Hrun).
Qed.

End Loop.

(** ** The returned dictionary *)

Section Flatten.

Lemma dict_snoc pairs k v :
  Py.dict (pairs ++ [(k, v)]) = <[k := v]> (Py.dict pairs).
Proof. unfold Py.dict. by rewrite foldl_snoc. Qed.

(** The pair that comes last for a key decides the value. *)
Lemma dict_last pairs1 pairs2 k v :
  k ∉ pairs2.*1 →
  Py.dict (pairs1 ++ (k, v) :: pairs2) !! k = Some v.
Proof.
  induction pairs2 as [|[k' v'] pairs2 IH] using rev_ind; intros Hk.
  - rewrite dict_snoc. apply lookup_insert_eq.
  - rewrite fmap_app, not_elem_of_app in Hk. destruct Hk as [Hk Hk'].
    rewrite app_comm_cons, app_assoc, dict_snoc.
    rewrite lookup_insert_ne; [by apply IH|].
    intros ->. apply Hk'. simpl. apply list_elem_of_here.
Qed.

Lemma same_shape_length_concat lookup perf :
  same_shape lookup perf → length (concat lookup) = length (concat perf).
Proof.
  induction 1 as [|c r lookup perf Hcr _ IH]; [done|].
  rewrite !concat_cons, !length_app. congruence.
Qed.

(** The value returned for a validator is the cell of its last
    occurrence. *)
Lemma flatten_last_occurrence lookup perf v i pos :
  same_shape lookup perf → last_occurrence lookup v i pos →
  flatten_result lookup perf !! v = cell perf i pos.
Proof.
  intros Hshape (L1 & c1 & c2 & L2 & -> & <- & <- & Hc2 & HL2).
  apply Forall2_app_inv_l in Hshape as (P1 & P' & HP1 & HP' & ->).
  apply Forall2_cons_inv_l in HP' as (p & P2 & Hp & HP2 & ->).
  rewrite length_app in Hp. simpl in Hp.
  destruct (lookup_lt_is_Some_2 p (length c1)) as [d Hd]; [lia|].
  pose proof (Forall2_length _ _ _ HP1) as HlenP1.
  unfold cell. rewrite lookup_app_r by lia.
  rewrite HlenP1, Nat.sub_diag. simpl. rewrite Hd.
  unfold flatten_result.
  rewrite !concat_app, !concat_cons.
  rewrite <- (take_drop_middle p _ d Hd).
  rewrite <- !app_assoc. simpl.
  rewrite (app_assoc (concat L1)), (app_assoc (concat P1)).
  rewrite zip_with_app.
  2:{ rewrite !length_app, length_take.
      rewrite (same_shape_length_concat _ _ HP1). lia. }
  simpl. apply dict_last.
  intros Hin. apply list_elem_of_fmap in Hin as [[v' d'] [-> Hin]].
  apply elem_of_zip_l in Hin. simpl in Hin.
  apply elem_of_app in Hin as [?|?]; done.
Qed.

Lemma nodup_last_occurrence lookup v i pos committee :
  NoDup (concat lookup) →
  lookup !! i = Some committee → committee !! pos = Some v →
  last_occurrence lookup v i pos.
Proof.
  intros Hnd Hc Hv.
  exists (take i lookup), (take pos committee), (drop (S pos) committee),
    (drop (S i) lookup).
  rewrite (take_drop_middle committee _ v Hv).
  rewrite (take_drop_middle lookup _ committee Hc).
  rewrite <- (take_drop_middle lookup _ committee Hc) in Hnd.
  rewrite <- (take_drop_middle committee _ v Hv) in Hnd.
  rewrite concat_app, concat_cons in Hnd.
  apply NoDup_app in Hnd as (_ & _ & Hnd).
  apply NoDup_app in Hnd as (Hnd & Hdisj & _).
  apply NoDup_app in Hnd as (_ & _ & Hnd).
  apply NoDup_cons in Hnd as [Hnd _].
  split; [done|]. split.
  { rewrite length_take. apply lookup_lt_Some in Hc. lia. }
  split.
  { rewrite length_take. apply lookup_lt_Some in Hv. lia. }
  split; [done|].
  apply Hdisj. apply elem_of_app. right. apply list_elem_of_here.
Qed.

(** The last occurrence in the order of committee index, then
    position. *)
Lemma last_occurrence_order lookup v i pos :
  last_occurrence lookup v i pos
  ↔ (∃ committee, lookup !! i = Some committee ∧ committee !! pos = Some v)
    ∧ ∀ i' pos' committee',
        lookup !! i' = Some committee' → committee' !! pos' = Some v →
        (i' < i ∨ (i' = i ∧ pos' ≤ pos))%nat.
Proof.
  split.
  - intros (L1 & c1 & c2 & L2 & -> & <- & <- & Hc2 & HL2). split.
    + exists (c1 ++ v :: c2).
      by rewrite !lookup_app_r, !Nat.sub_diag by lia.
    + intros i' pos' c' Hc' Hv'.
      destruct (decide (i' < length L1)%nat) as [|Hi]; [by left|]. right.
      rewrite lookup_app_r in Hc' by lia.
      destruct (i' - length L1)%nat as [|j] eqn:Hj.
      * simpl in Hc'. simplify_eq. split; [lia|].
        destruct (decide (pos' ≤ length c1)%nat) as [|Hpos]; [done|].
        exfalso. apply Hc2.
        rewrite lookup_app_r in Hv' by lia.
        destruct (pos' - length c1)%nat as [|j'] eqn:Hj'; [lia|].
        simpl in Hv'. by eapply list_elem_of_lookup_2.
      * exfalso. apply HL2. simpl in Hc'.
        apply list_elem_of_In, in_concat. exists c'. split.
        -- apply list_elem_of_In. by eapply list_elem_of_lookup_2.
        -- apply list_elem_of_In. by eapply list_elem_of_lookup_2.
  - intros [(c & Hc & Hv) Hlast].
    exists (take i lookup), (take pos c), (drop (S pos) c), (drop (S i) lookup).
    rewrite (take_drop_middle c _ v Hv), (take_drop_middle lookup _ c Hc).
    split; [done|]. split.
    { rewrite length_take. apply lookup_lt_Some in Hc. lia. }
    split.
    { rewrite length_take. apply lookup_lt_Some in Hv. lia. }
    split.
    + intros Hin. apply list_elem_of_lookup in Hin as [j Hj].
      rewrite lookup_drop in Hj.
      destruct (Hlast _ _ _ Hc Hj) as [?|[_ ?]]; lia.
    + intros Hin. apply list_elem_of_In, in_concat in Hin as (c' & Hc' & Hv').
      apply list_elem_of_In, list_elem_of_lookup in Hc' as [j Hj].
      apply list_elem_of_In, list_elem_of_lookup in Hv' as [j' Hj'].
      rewrite lookup_drop in Hj.
      destruct (Hlast _ _ _ Hj Hj') as [?|[? _]]; lia.
Qed.

End Flatten.

(** ** The canonicality filter *)

Section Filter.

Context (cursor : Cursor) (slot : Z) (committee_lookup : list (list Z)).

Lemma for_each_app {S A} (body : S → A → result S) (s : S) (xs ys : list A) :
  for_each body s (xs ++ ys) = s' ← for_each body s xs; for_each body s' ys.
Proof.
  revert s. induction xs as [|x xs IH]; intros s; [done|].
  simpl. destruct (body s x); [apply IH|done].
Qed.

(** An attestation whose root has no block row leaves the result as it
    is without it. *)
Lemma unselected_no_effect before a after :
  selected cursor a = false →
  performance_over cursor slot committee_lookup (before ++ a :: after)
  = performance_over cursor slot committee_lookup (before ++ after).
Proof.
  intros Hsel. unfold performance_over, aggregate.
  rewrite !for_each_app. simpl.
  destruct (for_each _ _ before) as [perf|]; [|done]. simpl.
  by rewrite record_attestation_skip.
Qed.

Lemma canonical_selected a : canonical cursor a = true → selected cursor a = true.
Proof.
  unfold canonical, selected. by destruct (fetchone _).
Qed.

End Filter.

(** C1: an attestation whose block root is not canonical should leave the
    result as it is without the attestation.  Here the only vote refers to
    a block whose row carries a false canonical flag: the root is not
    canonical, yet the function returns distance 0 for validator 7, where
    the same store without the vote returns -1; and the run with the flag
    set to true returns the same dictionary as the run with the flag set
    to false. *)
Theorem noncanonical_block_row_counted :
  canonical (flagged_store false) (vote 0 11 [3] [187]) = false
  ∧ attestation_performance (flagged_store false) 10 = Ok {[ 7 := 0 ]}
  ∧ performance_over (flagged_store false) 10 [[7]] [] = Ok {[ 7 := -1 ]}
  ∧ attestation_performance (flagged_store true) 10
    = attestation_performance (flagged_store false) 10.
Proof. repeat split; vm_compute; reflexivity. Qed.

(** ** The decoder against its contract *)

(** C3, as stated, fails: the packed form of the empty bit-vector is the
    byte 1; decoded against a committee without members it gives one
    element, the bit 0, where the last 0 bits of the sequence in reverse
    order are no element at all. *)
Lemma decode_empty_committee_length :
  ssz_pack [] = [1]
  ∧ decode_spec (ssz_pack []) 0 = []
  ∧ decode_bits (ssz_pack []) 0 = [0]
  ∧ length (decode_bits (ssz_pack []) 0) ≠ 0%nat.
Proof. repeat split. vm_compute. discriminate. Qed.

(** C3, amended: for every packed vector and every length [n >= 1] that
    the vector holds ([n <= 8 * len(raw)]), the decoding step produces
    exactly [n] elements, each 0 or 1, and they are those of the procedure
    of the specification (reverse the bytes, read them as bits, take the
    last [n] bits in reverse order), that is the first [n] bits of the
    bytes read in order, each byte from its least significant bit, so
    that position [i] is bit [i mod 8] of byte [i div 8].  For [n = 0] the
    step produces one element, the bit 0. *)
Theorem decode_bits_contract (raw : list Z) (n : nat) :
  ((1 ≤ n ≤ 8 * length raw)%nat →
   decode_bits raw n = decode_spec raw n
   ∧ decode_bits raw n = take n (concat (byte_bits <$> raw))
   ∧ length (decode_bits raw n) = n
   ∧ Forall (λ bit, bit = 0 ∨ bit = 1) (decode_bits raw n)
   ∧ ∀ i byte, (i < n)%nat → raw !! (i `div` 8)%nat = Some byte →
       decode_bits raw n !! i
       = Some ((byte ≫ Z.of_nat (i `mod` 8)%nat) `mod` 2))
  ∧ (n = 0%nat → decode_bits raw n = [0]).
Proof.
  split.
  - intros [Hn Hlen].
    assert (raw ≠ []) as Hraw by (intros ->; simpl in Hlen; lia).
    pose proof (decode_bits_filled raw n Hn Hraw) as Hfill.
    split; [by rewrite decode_spec_take|].
    split; [done|]. split.
    { rewrite length_decode_bits. lia. }
    split.
    + rewrite Hfill. apply Forall_take, Forall_concat, Forall_fmap.
      apply Forall_forall. intros byte _. apply Forall_fmap, Forall_forall.
      intros i _. simpl.
      pose proof (Z.mod_pos_bound (byte ≫ Z.of_nat i) 2). lia.
    + intros i byte. apply lookup_decode_bits.
  - intros ->. apply decode_bits_nothing. by left.
Qed.

Lemma decode_bits_contract_witness :
  decode_bits [5; 255] 10 = decode_spec [5; 255] 10
  ∧ decode_bits [5; 255] 10 = take 10 (concat (byte_bits <$> [5; 255]))
  ∧ length (decode_bits [5; 255] 10) = 10%nat
  ∧ Forall (λ bit, bit = 0 ∨ bit = 1) (decode_bits [5; 255] 10)
  ∧ ∀ i byte, (i < 10)%nat → [5; 255] !! (i `div` 8)%nat = Some byte →
      decode_bits [5; 255] 10 !! i
      = Some ((byte ≫ Z.of_nat (i `mod` 8)%nat) `mod` 2).
Proof. apply (proj1 (decode_bits_contract [5; 255] 10)). simpl. lia. Defined.

(** C8: for every committee size [n >= 1], decoding the packed vector in
    which only logical position 0 is set gives true at position 0 and
    false at positions 1 to [n - 1]. *)
Theorem decode_only_first (n : nat) :
  (1 ≤ n)%nat →
  truthy <$> decode_bits (ssz_pack (only_first n)) n
  = true :: replicate (n - 1) false.
Proof.
  intros Hn. destruct n as [|m]; [lia|].
  replace (S m - 1)%nat with m by lia.
  change (true :: replicate m false) with (only_first (S m)).
  assert (length (only_first (S m)) = S m) as Hlen
    by (simpl; by rewrite length_replicate).
  rewrite <- Hlen at 2. by apply decode_ssz_pack.
Qed.

Lemma decode_only_first_witness :
  truthy <$> decode_bits (ssz_pack (only_first 9)) 9
  = true :: replicate (9 - 1) false.
Proof. apply (decode_only_first 9). lia. Defined.

(** ** The value returned for a validator *)

Section Returned.

Context (cursor : Cursor) (slot : Z).

Lemma last_occurrence_lookup lookup v i pos :
  last_occurrence lookup v i pos →
  ∃ committee, lookup !! i = Some committee ∧ committee !! pos = Some v.
Proof.
  intros (L1 & c1 & c2 & L2 & -> & <- & <- & _).
  exists (c1 ++ v :: c2). split.
  - by rewrite lookup_app_r, Nat.sub_diag by lia.
  - by rewrite lookup_app_r, Nat.sub_diag by lia.
Qed.

Lemma returned_from_table m :
  attestation_performance cursor slot = Ok m →
  ∃ perf, aggregate cursor slot (committees_of cursor slot)
            (attestations_of cursor slot) = Ok perf
          ∧ m = flatten_result (committees_of cursor slot) perf.
Proof.
  unfold attestation_performance, performance_over.
  destruct (aggregate _ _ _ _) as [perf|]; [|done].
  intros [= <-]. by exists perf.
Qed.

Lemma returned_when_indices_resolve :
  indices_resolve cursor (committees_of cursor slot)
    (attestations_of cursor slot) →
  ∃ perf, aggregate cursor slot (committees_of cursor slot)
            (attestations_of cursor slot) = Ok perf
          ∧ attestation_performance cursor slot
            = Ok (flatten_result (committees_of cursor slot) perf).
Proof.
  intros Hall.
  destruct (run_ok cursor slot _ _ _ (initial_same_shape _) Hall)
    as [perf Hrun].
  exists perf. split; [done|].
  unfold attestation_performance, performance_over, aggregate. by rewrite Hrun.
Qed.

Lemma aborted_by_unresolved_index a :
  a ∈ attestations_of cursor slot → selected cursor a = true →
  Py.index (committees_of cursor slot) (f_committee_index a) = None →
  attestation_performance cursor slot = Raise IndexError.
Proof.
  intros Hin Hsel Hk.
  unfold attestation_performance, performance_over, aggregate.
  rewrite run_raise; [done|].
  apply Exists_exists. by exists a.
Qed.

(** The call returns exactly when every processed attestation names a
    committee the list subscript accepts. *)
Lemma returns_iff_indices_resolve :
  (∃ m, attestation_performance cursor slot = Ok m)
  ↔ indices_resolve cursor (committees_of cursor slot)
      (attestations_of cursor slot).
Proof.
  split.
  - intros [m Hm]. apply Forall_forall. intros a Hin Hsel Hk.
    by rewrite (aborted_by_unresolved_index a Hin Hsel Hk) in Hm.
  - intros Hall.
    destruct (returned_when_indices_resolve Hall) as (perf & _ & Hm). eauto.
Qed.

(** The value returned for a validator is the first distance other
    than -1 among the attestations that reach the cell of its last
    occurrence, and -1 when there is none. *)
Lemma returned_value m v i pos :
  attestation_performance cursor slot = Ok m →
  last_occurrence (committees_of cursor slot) v i pos →
  m !! v
  = Some (settle (-1)
            (inclusion_distance slot
               <$> hits cursor (committees_of cursor slot) i pos
                     (attestations_of cursor slot))).
Proof.
  intros Hm Hlast.
  destruct (returned_from_table _ Hm) as (perf & Hrun & ->).
  destruct (last_occurrence_lookup _ _ _ _ Hlast) as (c & Hc & Hv).
  rewrite (flatten_last_occurrence _ _ _ _ _
             (aggregate_same_shape _ _ _ _ _ Hrun) Hlast).
  eapply aggregate_cell; [done..|]. by eapply lookup_lt_Some.
Qed.


(** In an ascending sequence the first attestation that reaches a cell
    has the least inclusion slot among those that reach it. *)
Lemma hits_head_least lookup i pos atts h rest :
  ascending atts → hits cursor lookup i pos atts = h :: rest →
  ∀ a, a ∈ hits cursor lookup i pos atts →
       f_inclusion_slot h ≤ f_inclusion_slot a.
Proof.
  intros Hasc.
  assert (Transitive (λ a b : Attestation,
                        f_inclusion_slot a ≤ f_inclusion_slot b))
    by (intros a b c; lia).
  apply Sorted_StronglySorted in Hasc; [|done].
  induction Hasc as [|a0 atts Hsorted IH Hle]; [done|].
  rewrite hits_cons.
  destruct (selected cursor a0 && marks lookup a0 i pos).
  - intros Heq a Ha. injection Heq as -> _.
    apply elem_of_cons in Ha as [->|Ha]; [lia|].
    apply elem_of_hits in Ha as [Ha _].
    rewrite Forall_forall in Hle. by apply Hle.
  - done.
Qed.

End Returned.

(** ** Minimum inclusion distance *)

(** C2, as stated, fails: both votes of the store are canonical, mark
    position 0 of committee 0 and come in ascending inclusion-slot order;
    the least distance among them is -1, and the function returns 2 for
    validator 7. *)
Lemma minimum_lost_after_sentinel_distance :
  ascending (attestations_of sentinel_store 10)
  ∧ last_occurrence (committees_of sentinel_store 10) 7 0 0
  ∧ minimum_distance sentinel_store 10 (committees_of sentinel_store 10)
      (attestations_of sentinel_store 10) 0 0 (-1)
  ∧ attestation_performance sentinel_store 10 = Ok {[ 7 := 2 ]}
  ∧ ¬ minimum_distance sentinel_store 10 (committees_of sentinel_store 10)
        (attestations_of sentinel_store 10) 0 0 2.
Proof.
  split; [repeat constructor; simpl; lia|].
  split; [by exists [], [], [], []; repeat split; try apply not_elem_of_nil|].
  split; [|split; [vm_compute; reflexivity|]].
  - split.
    + exists (vote 0 10 [3] [187]). repeat split. apply list_elem_of_here.
    + intros a Ha _ _. simpl in Ha.
      apply elem_of_cons in Ha as [->|Ha]; [done|].
      apply elem_of_cons in Ha as [->|Ha]; [done|].
      by apply not_elem_of_nil in Ha.
  - intros [_ Hmin].
    specialize (Hmin (vote 0 10 [3] [187]) (list_elem_of_here _ _)
                  eq_refl eq_refl).
    vm_compute in Hmin. by apply Hmin.
Qed.

(** C2, amended: let the attestations come in ascending inclusion-slot
    order, let the committee index of every processed attestation
    resolve (so that the call returns), let every block row fetched for
    the attestations carry a true canonical flag, and let validator [v]
    have its (last) occurrence at position [pos] of committee [i].  If at
    least one canonical attestation marks that position and none of those
    that do was included in the slot itself, the call returns for [v] the
    minimum of [inclusion_slot - slot - 1] over the canonical
    attestations that mark the position. *)
Theorem minimum_wins (cursor : Cursor) (slot : Z) (v : Z) (i pos : nat) :
  ascending (attestations_of cursor slot) →
  indices_resolve cursor (committees_of cursor slot)
    (attestations_of cursor slot) →
  rows_canonical cursor (attestations_of cursor slot) →
  last_occurrence (committees_of cursor slot) v i pos →
  (∀ a, a ∈ attestations_of cursor slot → canonical cursor a = true →
        marks (committees_of cursor slot) a i pos = true →
        f_inclusion_slot a ≠ slot) →
  (∃ a, a ∈ attestations_of cursor slot ∧ canonical cursor a = true
        ∧ marks (committees_of cursor slot) a i pos = true) →
  ∃ m d, attestation_performance cursor slot = Ok m
         ∧ m !! v = Some d
         ∧ minimum_distance cursor slot (committees_of cursor slot)
             (attestations_of cursor slot) i pos d.
Proof.
  intros Hasc Hres Hrows Hlast Hslot (a0 & Hin0 & Hcan0 & Hmark0).
  apply returns_iff_indices_resolve in Hres as [m Hm].
  exists m. rewrite (returned_value _ _ _ _ _ _ Hm Hlast).
  unfold rows_canonical in Hrows. rewrite Forall_forall in Hrows.
  assert (∀ a, a ∈ hits cursor (committees_of cursor slot) i pos
                     (attestations_of cursor slot)
               ↔ a ∈ attestations_of cursor slot ∧ canonical cursor a = true
                 ∧ marks (committees_of cursor slot) a i pos = true) as Hhits.
  { intros a. rewrite elem_of_hits. split.
    - intros (Ha & Hsel & Hmk). rewrite (Hrows _ Ha) in Hsel. done.
    - intros (Ha & Hcan & Hmk). rewrite (Hrows _ Ha). done. }
  destruct (hits cursor (committees_of cursor slot) i pos
              (attestations_of cursor slot)) as [|h rest] eqn:Heq.
  { exfalso. eapply not_elem_of_nil, Hhits. eauto. }
  pose proof (hits_head_least cursor _ i pos _ h rest Hasc Heq) as Hleast.
  rewrite Heq in Hleast.
  assert (h ∈ h :: rest) as Hh by apply list_elem_of_here.
  apply Hhits in Hh as (Hhin & Hhcan & Hhmk).
  exists (inclusion_distance slot h). split; [done|]. split.
  - rewrite fmap_cons. cbn [settle]. rewrite bool_decide_eq_true_2 by done.
    f_equal. apply settle_frozen.
    unfold inclusion_distance. specialize (Hslot h Hhin Hhcan Hhmk). lia.
  - split; [by exists h|].
    intros a Ha Hcan Hmk. unfold inclusion_distance.
    assert (a ∈ h :: rest) as Ha' by (apply Hhits; done).
    specialize (Hleast a Ha'). lia.
Qed.

Lemma minimum_wins_witness :
  ∃ m d, attestation_performance scenario_store 10 = Ok m
         ∧ m !! 7 = Some d
         ∧ minimum_distance scenario_store 10 (committees_of scenario_store 10)
             (attestations_of scenario_store 10) 0 0 d.
Proof.
  apply (minimum_wins scenario_store 10 7 0 0).
  - repeat constructor. simpl. lia.
  - repeat constructor; intros _; vm_compute; discriminate.
  - repeat constructor.
  - exists [], [], [9], []. repeat split.
    + intros H. apply elem_of_cons in H as [H|H]; [discriminate|].
      by apply not_elem_of_nil in H.
    + apply not_elem_of_nil.
  - intros a Ha Hcan _. simpl in Ha.
    apply elem_of_cons in Ha as [->|Ha]; [discriminate|].
    apply elem_of_cons in Ha as [->|Ha]; [simpl; lia|].
    by apply not_elem_of_nil in Ha.
  - exists (vote 0 12 [5] [187]). repeat split.
    apply list_elem_of_further, list_elem_of_here.
Defined.

(** The scenario of the specification returns 1 for validator 7 and -1
    for validator 9. *)
Lemma scenario_result :
  attestation_performance scenario_store 10 = Ok {[ 7 := 1; 9 := -1 ]}.
Proof. vm_compute. reflexivity. Qed.

(** ** Vectors that are too short *)

(** C4, as stated, fails: the committee has nine members and the vector
    of the canonical vote holds eight bits; the call returns a dictionary
    and no error, and the decoded sequence that entered the loop has
    eight elements. *)
Lemma short_vector_not_reported :
  canonical short_store (vote 0 11 [1] [187]) = true
  ∧ length (decode_bits [1] 9) = 8%nat
  ∧ attestation_performance short_store 10
    = Ok (Py.dict [(1, 0); (2, -1); (3, -1); (4, -1); (5, -1); (6, -1);
                   (7, -1); (8, -1); (9, -1)]).
Proof. repeat split; vm_compute; reflexivity. Qed.

(** C4, amended: a packed vector too short for its committee raises no
    error.  The call returns a dictionary whenever the committee index of
    every processed attestation resolves, whatever the vectors hold.  The
    decoded sequence has [max(1, min(n, 8 * len(raw)))] elements, so for
    [n >= 1] never more than [n]; a vector of fewer than [n] bits is
    silently cut short: the decoded sequence is all the [8 * len(raw)]
    bits of the vector (the single bit 0 for a vector without bytes), so
    that no position from [8 * len(raw)] on is marked. *)
Theorem short_vector_truncated (cursor : Cursor) (slot : Z) :
  indices_resolve cursor (committees_of cursor slot)
    (attestations_of cursor slot) →
  (∃ m, attestation_performance cursor slot = Ok m)
  ∧ (∀ raw n,
       length (decode_bits raw n) = (1 `max` (n `min` (8 * length raw)))%nat
       ∧ ((1 ≤ n)%nat → (length (decode_bits raw n) ≤ n)%nat)
       ∧ ((8 * length raw < n)%nat →
          decode_bits raw n
          = if decide (raw = []) then [0] else concat (byte_bits <$> raw)))
  ∧ (∀ a i pos, (8 * length (f_aggregation_bits a) ≤ pos)%nat →
                marks (committees_of cursor slot) a i pos = false).
Proof.
  intros Hall. split; [|split].
  - by apply returns_iff_indices_resolve.
  - intros raw n. split; [apply length_decode_bits|]. split.
    + intros Hn. rewrite length_decode_bits. lia.
    + intros Hshort. case_decide as Hraw.
      * apply decode_bits_nothing. by right.
      * rewrite decode_bits_filled by (done || lia).
        apply take_ge. rewrite length_concat_byte_bits. lia.
  - intros a i pos Hpos. unfold marks.
    destruct (Py.index _ _); [|done].
    destruct (committees_of cursor slot !! i) as [c|]; [|done].
    rewrite truthy_lookup_decode_bits, lookup_ge_None_2, andb_false_r;
      [done|].
    rewrite length_take, length_concat_byte_bits. lia.
Qed.

Lemma short_vector_truncated_witness :
  (∃ m, attestation_performance short_store 10 = Ok m)
  ∧ (∀ raw n,
       length (decode_bits raw n) = (1 `max` (n `min` (8 * length raw)))%nat
       ∧ ((1 ≤ n)%nat → (length (decode_bits raw n) ≤ n)%nat)
       ∧ ((8 * length raw < n)%nat →
          decode_bits raw n
          = if decide (raw = []) then [0] else concat (byte_bits <$> raw)))
  ∧ (∀ a i pos, (8 * length (f_aggregation_bits a) ≤ pos)%nat →
                marks (committees_of short_store 10) a i pos = false).
Proof.
  apply (short_vector_truncated short_store 10).
  repeat constructor. intros _. vm_compute. discriminate.
Defined.

(** ** Committee references that do not resolve *)




(** ** A slot without committees *)

(** C6, as stated, fails: the store returns no committee for the slot and
    one canonical vote, and the call raises. *)
Lemma no_committees_raises :
  committees_of empty_lookup_store 10 = []
  ∧ canonical empty_lookup_store (vote 0 11 [3] [187]) = true
  ∧ attestation_performance empty_lookup_store 10 = Raise IndexError.
Proof. repeat split; reflexivity. Qed.

(** C6, amended: for a slot without committees the call returns the
    empty dictionary when no attestation of the slot refers to a block
    the store has a row for, and it fails with an [IndexError] when some
    attestation of the slot is canonical. *)
Theorem no_committees_result (cursor : Cursor) (slot : Z) :
  committees_of cursor slot = [] →
  (Forall (λ a, selected cursor a = false) (attestations_of cursor slot) →
   attestation_performance cursor slot = Ok ∅)
  ∧ (Exists (λ a, canonical cursor a = true) (attestations_of cursor slot) →
     attestation_performance cursor slot = Raise IndexError).
Proof.
  intros Hempty. split.
  - intros Hall.
    unfold attestation_performance, performance_over, aggregate. rewrite Hempty.
    assert (∀ perf,
      for_each (record_attestation cursor slot []) perf
               (attestations_of cursor slot) = Ok perf) as ->; [|done].
    induction Hall as [|a atts Ha _ IH]; intros perf; [done|].
    simpl. rewrite record_attestation_skip by done. apply IH.
  - intros Hex. apply Exists_exists in Hex as (a & Hin & Hcan).
    apply (aborted_by_unresolved_index _ _ a Hin).
    + by apply canonical_selected.
    + apply index_None. rewrite Hempty. simpl. lia.
Qed.

Lemma no_committees_result_witness :
  attestation_performance empty_lookup_unknown_root_store 10 = Ok ∅
  ∧ attestation_performance empty_lookup_store 10 = Raise IndexError.
Proof.
  split.
  - apply (no_committees_result empty_lookup_unknown_root_store 10).
    + reflexivity.
    + repeat constructor.
  - apply (no_committees_result empty_lookup_store 10).
    + reflexivity.
    + repeat constructor.
Defined.

(** ** Cells are set once *)

(** C7, as stated, fails: the canonical vote was included two slots
    before the slot, and the cell of validator 7 moves from -1 to -3. *)
Lemma negative_distance_written :
  initial_performance (committees_of early_store 10) = [[-1]]
  ∧ canonical early_store (vote 0 8 [3] [187]) = true
  ∧ aggregate early_store 10 (committees_of early_store 10)
      (attestations_of early_store 10) = Ok [[-3]].
Proof. repeat split; reflexivity. Qed.

(** C7, amended: every cell starts at -1.  Cut the loop at any point:
    [perf] is the table after the attestations [before] and [perf'] the
    table after the attestations [after] that follow.  A cell that holds
    a value other than -1 in [perf] holds the same value in [perf']; a
    cell whose value differs between [perf] and [perf'] was -1 and has
    become [inclusion_slot - slot - 1] of a processed attestation of
    [after] that marks it; and when every attestation was included after
    the slot, the cell is -1 or non-negative at both points. *)
Theorem cells_set_once (cursor : Cursor) (slot : Z)
    (committee_lookup : list (list Z)) (before after : list Attestation)
    (i pos : nat) (committee : list Z) :
  indices_resolve cursor committee_lookup (before ++ after) →
  committee_lookup !! i = Some committee → (pos < length committee)%nat →
  ∃ perf perf' x y,
    aggregate cursor slot committee_lookup before = Ok perf
    ∧ for_each (record_attestation cursor slot committee_lookup) perf after
      = Ok perf'
    ∧ aggregate cursor slot committee_lookup (before ++ after) = Ok perf'
    ∧ cell (initial_performance committee_lookup) i pos = Some (-1)
    ∧ cell perf i pos = Some x
    ∧ cell perf' i pos = Some y
    ∧ (x ≠ -1 → y = x)
    ∧ (y ≠ x →
       x = -1
       ∧ ∃ a, a ∈ after ∧ selected cursor a = true
              ∧ marks committee_lookup a i pos = true
              ∧ y = f_inclusion_slot a - slot - 1)
    ∧ (Forall (λ a, slot < f_inclusion_slot a) (before ++ after) →
       (x = -1 ∨ 0 ≤ x) ∧ (y = -1 ∨ 0 ≤ y)).
Proof.
  intros Hres Hc Hpos.
  apply Forall_app in Hres as [Hres1 Hres2].
  destruct (run_ok cursor slot _ _ _ (initial_same_shape _) Hres1)
    as [perf Hrun1].
  destruct (run_cell _ _ _ _ _ _ (initial_same_shape _) Hrun1)
    as [Hshape Hcell1].
  destruct (run_ok cursor slot _ _ _ Hshape Hres2) as [perf' Hrun2].
  destruct (run_cell _ _ _ _ _ _ Hshape Hrun2) as [_ Hcell2].
  pose proof (initial_cell _ _ _ _ Hc Hpos) as Hinit.
  specialize (Hcell1 i pos). specialize (Hcell2 i pos).
  rewrite Hinit in Hcell1. simpl in Hcell1.
  rewrite Hcell1 in Hcell2. simpl in Hcell2.
  set (ds1 := inclusion_distance slot
                <$> hits cursor committee_lookup i pos before) in *.
  set (ds2 := inclusion_distance slot
                <$> hits cursor committee_lookup i pos after) in *.
  set (x := settle (-1) ds1) in *. set (y := settle x ds2) in *.
  assert (∀ z ds atts,
            ds = inclusion_distance slot
                   <$> hits cursor committee_lookup i pos atts →
            settle z ds ≠ z →
            z = -1
            ∧ ∃ a, a ∈ atts ∧ selected cursor a = true
                   ∧ marks committee_lookup a i pos = true
                   ∧ settle z ds = f_inclusion_slot a - slot - 1) as Hset.
  { intros z ds atts -> Hne.
    destruct (settle_offered z (inclusion_distance slot
                <$> hits cursor committee_lookup i pos atts))
      as [?|[-> Hin]]; [done|].
    split; [done|].
    apply list_elem_of_fmap in Hin as (a & Ha & Hin).
    apply elem_of_hits in Hin as (? & ? & ?). by exists a. }
  exists perf, perf', x, y.
  split; [done|]. split; [done|]. split.
  { unfold aggregate in *. by rewrite for_each_app, Hrun1. }
  split; [done|]. split; [done|]. split; [done|].
  split; [by apply settle_frozen|].
  split; [by apply (Hset x ds2 after)|].
  intros Hafter. rewrite Forall_forall in Hafter.
  assert (x = -1 ∨ 0 ≤ x) as Hx.
  { destruct (decide (x = -1)) as [|Hne]; [by left|]. right.
    destruct (Hset (-1) ds1 before eq_refl Hne) as (_ & a & Ha & _ & _ & Heq).
    fold x in Heq. rewrite Heq.
    assert (a ∈ before ++ after) as Hin by (apply elem_of_app; by left).
    specialize (Hafter a Hin). lia. }
  split; [done|].
  destruct (decide (y = x)) as [->|Hne]; [done|]. right.
  destruct (Hset x ds2 after eq_refl Hne) as (_ & a & Ha & _ & _ & Heq).
  fold y in Heq. rewrite Heq.
  assert (a ∈ before ++ after) as Hin by (apply elem_of_app; by right).
  specialize (Hafter a Hin). lia.
Qed.

Lemma cells_set_once_witness :
  ∃ perf perf' x y,
    aggregate sentinel_store 10 [[7]] [vote 0 10 [3] [187]] = Ok perf
    ∧ for_each (record_attestation sentinel_store 10 [[7]]) perf
        [vote 0 13 [3] [187]] = Ok perf'
    ∧ aggregate sentinel_store 10 [[7]]
        ([vote 0 10 [3] [187]] ++ [vote 0 13 [3] [187]]) = Ok perf'
    ∧ cell (initial_performance [[7]]) 0 0 = Some (-1)
    ∧ cell perf 0 0 = Some x
    ∧ cell perf' 0 0 = Some y
    ∧ (x ≠ -1 → y = x)
    ∧ (y ≠ x →
       x = -1
       ∧ ∃ a, a ∈ [vote 0 13 [3] [187]] ∧ selected sentinel_store a = true
              ∧ marks [[7]] a 0 0 = true
              ∧ y = f_inclusion_slot a - 10 - 1)
    ∧ (Forall (λ a, 10 < f_inclusion_slot a)
              ([vote 0 10 [3] [187]] ++ [vote 0 13 [3] [187]]) →
       (x = -1 ∨ 0 ≤ x) ∧ (y = -1 ∨ 0 ≤ y)).
Proof.
  apply (cells_set_once sentinel_store 10 [[7]] [vote 0 10 [3] [187]]
           [vote 0 13 [3] [187]] 0 0 [7]).
  - repeat constructor; intros _; vm_compute; discriminate.
  - reflexivity.
  - simpl. lia.
Defined.

(** ** Validators listed more than once *)

(** C9: when a validator is listed at more than one cell, the call still
    returns a dictionary (it does so whenever the committee index of
    every processed attestation resolves).  Every cell at which the
    validator is listed holds, in the final table, the distance recorded
    for that cell (the first distance other than -1 offered by the
    attestations that reach it, else -1); the dictionary returns for the
    validator the value of the cell of its last occurrence in the order
    of committee index, then position, and the values recorded at its
    earlier occurrences do not appear in the dictionary. *)
Theorem duplicate_validator_last_wins (cursor : Cursor) (slot : Z) :
  indices_resolve cursor (committees_of cursor slot)
    (attestations_of cursor slot) →
  ∃ perf m,
    aggregate cursor slot (committees_of cursor slot)
      (attestations_of cursor slot) = Ok perf
    ∧ attestation_performance cursor slot = Ok m
    ∧ (∀ v i pos committee,
         committees_of cursor slot !! i = Some committee →
         committee !! pos = Some v →
         cell perf i pos
         = Some (settle (-1)
                   (inclusion_distance slot
                      <$> hits cursor (committees_of cursor slot) i pos
                            (attestations_of cursor slot))))
    ∧ ∀ v i pos,
        last_occurrence (committees_of cursor slot) v i pos →
        ∃ d, cell perf i pos = Some d
             ∧ m !! v = Some d
             ∧ ∀ i' pos' committee',
                 committees_of cursor slot !! i' = Some committee' →
                 committee' !! pos' = Some v →
                 (i' < i ∨ (i' = i ∧ pos' ≤ pos))%nat.
Proof.
  intros Hall.
  destruct (returned_when_indices_resolve _ _ Hall) as (perf & Hrun & Hm).
  exists perf, (flatten_result (committees_of cursor slot) perf).
  split; [done|]. split; [done|].
  assert (∀ v i pos committee,
            committees_of cursor slot !! i = Some committee →
            committee !! pos = Some v →
            cell perf i pos
            = Some (settle (-1)
                      (inclusion_distance slot
                         <$> hits cursor (committees_of cursor slot) i pos
                               (attestations_of cursor slot)))) as Hcell.
  { intros v i pos c Hc Hv. eapply aggregate_cell; [done..|].
    by eapply lookup_lt_Some. }
  split; [done|].
  intros v i pos Hlast.
  pose proof Hlast as [(c & Hc & Hv) Horder]%last_occurrence_order.
  eexists. split; [by eapply Hcell|]. split; [|done].
  rewrite <- (Hcell _ _ _ _ Hc Hv).
  apply flatten_last_occurrence; [|done].
  by eapply aggregate_same_shape.
Qed.

Lemma duplicate_validator_last_wins_witness :
  ∃ perf m,
    aggregate duplicate_store 10 (committees_of duplicate_store 10)
      (attestations_of duplicate_store 10) = Ok perf
    ∧ attestation_performance duplicate_store 10 = Ok m
    ∧ (∀ v i pos committee,
         committees_of duplicate_store 10 !! i = Some committee →
         committee !! pos = Some v →
         cell perf i pos
         = Some (settle (-1)
                   (inclusion_distance 10
                      <$> hits duplicate_store (committees_of duplicate_store 10)
                            i pos (attestations_of duplicate_store 10))))
    ∧ ∀ v i pos,
        last_occurrence (committees_of duplicate_store 10) v i pos →
        ∃ d, cell perf i pos = Some d
             ∧ m !! v = Some d
             ∧ ∀ i' pos' committee',
                 committees_of duplicate_store 10 !! i' = Some committee' →
                 committee' !! pos' = Some v →
                 (i' < i ∨ (i' = i ∧ pos' ≤ pos))%nat.
Proof.
  apply (duplicate_validator_last_wins duplicate_store 10).
  repeat constructor. intros _. vm_compute. discriminate.
Defined.

(** The store with validator 7 at positions 0 and 1: the vote records
    distance 0 at position 0, position 1 stays -1, position 1 is the last
    occurrence, and the dictionary returns -1 for validator 7. *)
Lemma duplicate_store_result :
  aggregate duplicate_store 10 (committees_of duplicate_store 10)
    (attestations_of duplicate_store 10) = Ok [[0; -1]]
  ∧ last_occurrence (committees_of duplicate_store 10) 7 0 1
  ∧ attestation_performance duplicate_store 10 = Ok {[ 7 := -1 ]}.
Proof.
  split; [vm_compute; reflexivity|]. split; [|vm_compute; reflexivity].
  exists [], [7], [], []. repeat split; apply not_elem_of_nil.
Qed.

(** ** No check of the inclusion slot *)

(** C10: let the committee index of every processed attestation resolve,
    and let a canonical attestation [a] mark the cell of the (last)
    occurrence of validator [v], no earlier attestation having reached
    that cell.  The call returns, and the value recorded by [a] is
    [inclusion_slot - slot - 1] without any check: it is returned for [v]
    whenever it differs from -1, so it is below -1 when [a] was included
    before the slot; and when [a] was included in the slot itself the
    cell is left at -1 and the attestations after [a] decide as if [a]
    were absent, the next one that reaches the cell with another
    inclusion slot setting the value. *)
Theorem no_inclusion_slot_check (cursor : Cursor) (slot : Z) (v : Z)
    (i pos : nat) (before : list Attestation) (a : Attestation)
    (after : list Attestation) :
  attestations_of cursor slot = before ++ a :: after →
  indices_resolve cursor (committees_of cursor slot)
    (attestations_of cursor slot) →
  last_occurrence (committees_of cursor slot) v i pos →
  hits cursor (committees_of cursor slot) i pos before = [] →
  canonical cursor a = true →
  marks (committees_of cursor slot) a i pos = true →
  ∃ m,
    attestation_performance cursor slot = Ok m
    ∧ (f_inclusion_slot a ≠ slot →
       m !! v = Some (f_inclusion_slot a - slot - 1))
    ∧ (f_inclusion_slot a < slot → ∃ d, m !! v = Some d ∧ d < -1)
    ∧ (f_inclusion_slot a = slot →
       m !! v
       = Some (settle (-1)
                 (inclusion_distance slot
                    <$> hits cursor (committees_of cursor slot) i pos after))
       ∧ (hits cursor (committees_of cursor slot) i pos after = [] →
          m !! v = Some (-1))
       ∧ ∀ b rest,
           hits cursor (committees_of cursor slot) i pos after = b :: rest →
           f_inclusion_slot b ≠ slot →
           m !! v = Some (f_inclusion_slot b - slot - 1)).
Proof.
  intros Hatts Hres Hlast Hbefore Hcan Hmark.
  apply returns_iff_indices_resolve in Hres as [m Hm]. exists m.
  split; [done|].
  pose proof (returned_value _ _ _ _ _ _ Hm Hlast) as Hv.
  rewrite Hatts in Hv. unfold hits in Hv. rewrite filter_app in Hv.
  fold (hits cursor (committees_of cursor slot) i pos before) in Hv.
  fold (hits cursor (committees_of cursor slot) i pos (a :: after)) in Hv.
  rewrite Hbefore, hits_cons, (canonical_selected _ _ Hcan), Hmark in Hv.
  rewrite app_nil_l in Hv. cbn [andb] in Hv.
  rewrite fmap_cons in Hv. cbn [settle] in Hv.
  rewrite bool_decide_eq_true_2 in Hv by done.
  assert (f_inclusion_slot a ≠ slot →
          m !! v = Some (f_inclusion_slot a - slot - 1)) as Hrec.
  { intros Hne. rewrite Hv. f_equal. apply settle_frozen.
    unfold inclusion_distance. lia. }
  split; [done|]. split.
  - intros Hlt. eexists. split; [apply Hrec; lia|lia].
  - intros Heq.
    assert (inclusion_distance slot a = -1) as Hd
      by (unfold inclusion_distance; lia).
    rewrite Hd in Hv. split; [done|]. split.
    + intros Hnil. by rewrite Hv, Hnil.
    + intros b rest Hb Hne. rewrite Hv, Hb. simpl.
      f_equal. apply settle_frozen. unfold inclusion_distance. lia.
Qed.

Lemma no_inclusion_slot_check_witness :
  ∃ m,
    attestation_performance early_store 10 = Ok m
    ∧ (8 ≠ 10 → m !! 7 = Some (8 - 10 - 1))
    ∧ (8 < 10 → ∃ d, m !! 7 = Some d ∧ d < -1)
    ∧ (8 = 10 →
       m !! 7
       = Some (settle (-1)
                 (inclusion_distance 10
                    <$> hits early_store (committees_of early_store 10) 0 0 []))
       ∧ (hits early_store (committees_of early_store 10) 0 0 [] = [] →
          m !! 7 = Some (-1))
       ∧ ∀ b rest,
           hits early_store (committees_of early_store 10) 0 0 [] = b :: rest →
           f_inclusion_slot b ≠ 10 →
           m !! 7 = Some (f_inclusion_slot b - 10 - 1)).
Proof.
  apply (no_inclusion_slot_check early_store 10 7 0 0
           [] (vote 0 8 [3] [187]) []).
  - reflexivity.
  - repeat constructor. intros _. vm_compute. discriminate.
  - exists [], [], [], []. repeat split; apply not_elem_of_nil.
  - reflexivity.
  - reflexivity.
  - reflexivity.
Defined.

(** The two votes of the store with a vote included in the slot itself:
    the first leaves the cell at -1 and the second sets it. *)
Lemma sentinel_store_result :
  aggregate sentinel_store 10 [[7]] [vote 0 10 [3] [187]] = Ok [[-1]]
  ∧ attestation_performance sentinel_store 10 = Ok {[ 7 := 2 ]}.
Proof. split; vm_compute; reflexivity. Qed.

(** * Further properties *)

(** ** The distribution of outages *)

(** X1: whatever the rates and the threshold, [outage_distribution]
    returns only for the empty history, and then the empty dictionary;
    for every other history it raises [UnboundLocalError] at the first
    rate, so the assignment through the unbound name of line 54 is never
    reached and no [NameError] is ever raised. *)
Theorem outage_distribution_outcome {R} (gt : R → R → bool)
    (history : list R) (min_participation : R) :
  (history = [] →
   Outage.outage_distribution gt history min_participation = Outage.Return ∅)
  ∧ (history ≠ [] →
     Outage.outage_distribution gt history min_participation
     = Outage.Throw Outage.UnboundLocalError)
  ∧ Outage.outage_distribution gt history min_participation
    ≠ Outage.Throw Outage.NameError
  ∧ ∀ d, Outage.outage_distribution gt history min_participation
         = Outage.Return d → history = [] ∧ d = ∅.
Proof.
  destruct history as [|rate history].
  - split; [done|]. split; [done|]. split; [done|].
    intros d Hd. injection Hd as <-. done.
  - assert (Outage.outage_distribution gt (rate :: history) min_participation
            = Outage.Throw Outage.UnboundLocalError) as ->.
    { unfold Outage.outage_distribution. simpl. unfold Outage.body. simpl.
      by rewrite andb_false_r. }
    repeat split; done.
Qed.

Lemma outage_distribution_outcome_witness :
  Outage.outage_distribution Z.gtb [3; 1; 2] 2
  = Outage.Throw Outage.UnboundLocalError.
Proof. by apply (outage_distribution_outcome Z.gtb [3; 1; 2] 2). Defined.

(** ** The sentinel and the distances *)

Section Sentinel.

Context (cursor : Cursor) (slot : Z) (committee_lookup : list (list Z)).

Lemma settle_sentinel ds : settle (-1) ds = -1 ↔ Forall (λ d, d = -1) ds.
Proof.
  induction ds as [|d ds IH]; [by split|].
  cbn [settle]. rewrite bool_decide_eq_true_2 by done.
  destruct (decide (d = -1)) as [->|Hne].
  - rewrite IH. split; [by constructor|]. by intros [_ ?]%Forall_cons.
  - rewrite settle_frozen by done. split; [done|].
    by intros [? _]%Forall_cons.
Qed.

(** A settled value other than -1 is the distance of the first
    attestation of the sequence that reaches the cell with an inclusion
    slot other than the slot. *)
Lemma settle_first i pos atts d :
  settle (-1) (inclusion_distance slot <$> hits cursor committee_lookup i pos atts)
  = d →
  d ≠ -1 →
  ∃ before a after,
    atts = before ++ a :: after
    ∧ selected cursor a = true
    ∧ marks committee_lookup a i pos = true
    ∧ d = f_inclusion_slot a - slot - 1
    ∧ ∀ b, b ∈ before → selected cursor b = true →
           marks committee_lookup b i pos = true → f_inclusion_slot b = slot.
Proof.
  induction atts as [|a0 atts IH]; intros Hd Hne; [done|].
  rewrite hits_cons in Hd.
  destruct (selected cursor a0) eqn:Hsel;
    [destruct (marks committee_lookup a0 i pos) eqn:Hmk|].
  - cbn [andb] in Hd. rewrite fmap_cons in Hd. cbn [settle] in Hd.
    rewrite bool_decide_eq_true_2 in Hd by done.
    destruct (decide (inclusion_distance slot a0 = -1)) as [Heq|Hne0].
    + rewrite Heq in Hd.
      destruct (IH Hd Hne) as (before & a & after & -> & ? & ? & ? & Hb).
      exists (a0 :: before), a, after. repeat split; [done..|].
      intros b [->|Hin]%elem_of_cons ? ?; [|by apply Hb].
      unfold inclusion_distance in Heq. lia.
    + rewrite settle_frozen in Hd by done.
      exists [], a0, atts. repeat split; [done..| |].
      * by rewrite <- Hd.
      * intros b Hin. by apply not_elem_of_nil in Hin.
  - cbn [andb] in Hd.
    destruct (IH Hd Hne) as (before & a & after & -> & ? & ? & ? & Hb).
    exists (a0 :: before), a, after. repeat split; [done..|].
    intros b [->|Hin]%elem_of_cons ? ?; [congruence|by apply Hb].
  - cbn [andb] in Hd.
    destruct (IH Hd Hne) as (before & a & after & -> & ? & ? & ? & Hb).
    exists (a0 :: before), a, after. repeat split; [done..|].
    intros b [->|Hin]%elem_of_cons ? ?; [congruence|by apply Hb].
Qed.

End Sentinel.

(** X2: when the call returns, the value of a validator is the sentinel
    -1 exactly when every processed attestation that marks the cell of
    its (last) occurrence was included in the slot itself; in particular
    a validator whose cell no processed attestation marks gets -1. *)
Theorem sentinel_iff_no_inclusion (cursor : Cursor) (slot : Z)
    (m : gmap Z Z) (v : Z) (i pos : nat) :
  attestation_performance cursor slot = Ok m →
  last_occurrence (committees_of cursor slot) v i pos →
  m !! v = Some (-1)
  ↔ ∀ a, a ∈ attestations_of cursor slot → selected cursor a = true →
         marks (committees_of cursor slot) a i pos = true →
         f_inclusion_slot a = slot.
Proof.
  intros Hm Hlast. rewrite (returned_value _ _ _ _ _ _ Hm Hlast).
  split.
  - intros [= Hs]. apply settle_sentinel in Hs.
    rewrite Forall_fmap, Forall_forall in Hs.
    intros a Hin Hsel Hmk.
    assert (inclusion_distance slot a = -1) as Hd
      by (apply Hs, elem_of_hits; done).
    unfold inclusion_distance in Hd. lia.
  - intros Hall. f_equal. apply settle_sentinel.
    rewrite Forall_fmap, Forall_forall.
    intros a (Hin & Hsel & Hmk)%elem_of_hits. simpl.
    unfold inclusion_distance. rewrite (Hall a Hin Hsel Hmk). lia.
Qed.

Lemma sentinel_iff_no_inclusion_witness :
  ({[ 7 := 1; 9 := -1 ]} : gmap Z Z) !! 9 = Some (-1)
  ↔ ∀ a, a ∈ attestations_of scenario_store 10 →
         selected scenario_store a = true →
         marks (committees_of scenario_store 10) a 0 1 = true →
         f_inclusion_slot a = 10.
Proof.
  apply (sentinel_iff_no_inclusion scenario_store 10 _ 9 0 1).
  - vm_compute. reflexivity.
  - exists [], [7], [], []. repeat split; apply not_elem_of_nil.
Defined.

(** X3: when the call returns a value other than -1 for a validator, that
    value is [inclusion_slot - slot - 1] of an attestation of the slot
    that is processed and marks the cell of the validator's (last)
    occurrence, namely the first such attestation, in the order of the
    stream, whose inclusion slot is not the slot itself. *)
Theorem returned_distance_first_inclusion (cursor : Cursor) (slot : Z)
    (m : gmap Z Z) (v : Z) (i pos : nat) (d : Z) :
  attestation_performance cursor slot = Ok m →
  last_occurrence (committees_of cursor slot) v i pos →
  m !! v = Some d → d ≠ -1 →
  ∃ before a after,
    attestations_of cursor slot = before ++ a :: after
    ∧ selected cursor a = true
    ∧ marks (committees_of cursor slot) a i pos = true
    ∧ d = f_inclusion_slot a - slot - 1
    ∧ ∀ b, b ∈ before → selected cursor b = true →
           marks (committees_of cursor slot) b i pos = true →
           f_inclusion_slot b = slot.
Proof.
  intros Hm Hlast Hv Hne.
  rewrite (returned_value _ _ _ _ _ _ Hm Hlast) in Hv.
  injection Hv as Hv. by eapply settle_first.
Qed.

Lemma returned_distance_first_inclusion_witness :
  ∃ before a after,
    attestations_of sentinel_store 10 = before ++ a :: after
    ∧ selected sentinel_store a = true
    ∧ marks (committees_of sentinel_store 10) a 0 0 = true
    ∧ 2 = f_inclusion_slot a - 10 - 1
    ∧ ∀ b, b ∈ before → selected sentinel_store b = true →
           marks (committees_of sentinel_store 10) b 0 0 = true →
           f_inclusion_slot b = 10.
Proof.
  apply (returned_distance_first_inclusion sentinel_store 10 {[ 7 := 2 ]} 7).
  - vm_compute. reflexivity.
  - exists [], [], [], []. repeat split; apply not_elem_of_nil.
  - reflexivity.
  - done.
Defined.

(** ** Failure *)

(** X4: the call fails exactly when some attestation of the slot whose
    root has a block row names a committee outside
    [-len(committee_lookup) .. len(committee_lookup) - 1]; nothing else
    in the rows (aggregation bits, inclusion slots, canonical flags)
    makes it fail. *)
Theorem failure_iff_unresolved_index (cursor : Cursor) (slot : Z) :
  attestation_performance cursor slot = Raise IndexError
  ↔ ∃ a, a ∈ attestations_of cursor slot
         ∧ selected cursor a = true
         ∧ (f_committee_index a < - Z.of_nat (length (committees_of cursor slot))
            ∨ Z.of_nat (length (committees_of cursor slot)) ≤ f_committee_index a).
Proof.
  split.
  - intros Hfail.
    destruct (decide (Exists
      (λ a, selected cursor a = true
            ∧ Py.index (committees_of cursor slot) (f_committee_index a) = None)
      (attestations_of cursor slot))) as [Hex|Hnex].
    + apply Exists_exists in Hex as (a & Hin & Hsel & Hk).
      exists a. by rewrite <- index_None.
    + exfalso.
      assert (indices_resolve cursor (committees_of cursor slot)
                (attestations_of cursor slot)) as Hres.
      { apply Forall_forall. intros a Hin Hsel Hk. apply Hnex.
        apply Exists_exists. by exists a. }
      apply returns_iff_indices_resolve in Hres as [m Hm]. congruence.
  - intros (a & Hin & Hsel & Hk).
    apply (aborted_by_unresolved_index _ _ a Hin Hsel). by apply index_None.
Qed.

Lemma failure_iff_unresolved_index_witness :
  attestation_performance unknown_index_store 10 = Raise IndexError.
Proof.
  apply (proj2 (failure_iff_unresolved_index unknown_index_store 10)).
  exists (vote 5 11 [3] [187]). split; [apply list_elem_of_here|].
  split; [reflexivity|]. right. simpl. lia.
Defined.

(** ** Attestations on unknown roots *)

(** X5: the attestations whose root has no block row can be removed from
    the stream all at once: the outcome of the call, dictionary or
    failure, is the same with and without them. *)
Theorem unknown_roots_dropped (cursor : Cursor) (slot : Z)
    (committee_lookup : list (list Z)) (attestations : list Attestation) :
  performance_over cursor slot committee_lookup attestations
  = performance_over cursor slot committee_lookup
      (filter (λ a, selected cursor a = true) attestations).
Proof.
  unfold performance_over, aggregate. f_equal.
  generalize (initial_performance committee_lookup).
  induction attestations as [|a atts IH]; intros perf; [done|].
  rewrite filter_cons. destruct (selected cursor a) eqn:Hsel.
  - rewrite decide_True by done. simpl.
    destruct (record_attestation _ _ _ _ _); [apply IH|done].
  - rewrite decide_False by done. simpl.
    rewrite record_attestation_skip by done. apply IH.
Qed.

(** ** Round trip of the decoder *)

(** X6: decoding the packed form of any bit-vector that is not empty
    against its logical length gives the bit-vector back, whatever bytes
    follow the packed form: the delimiter, the padding and trailing bytes
    are never read.  For the empty bit-vector the decoded sequence is one
    false bit. *)
Theorem decode_bits_round_trip (bs : list bool) (extra : list Z) :
  (bs ≠ [] →
   truthy <$> decode_bits (ssz_pack bs ++ extra) (length bs) = bs)
  ∧ (bs = [] →
     truthy <$> decode_bits (ssz_pack bs ++ extra) (length bs) = [false]).
Proof.
  split.
  - intros Hbs.
    assert (1 ≤ length bs)%nat as Hlen by (destruct bs; [done|simpl; lia]).
    rewrite <- (decode_ssz_pack bs Hbs) at 3.
    assert (ssz_pack bs ≠ []) as Hpack.
    { intros Hnil. apply (f_equal length) in Hnil.
      rewrite length_ssz_pack in Hnil. simpl in Hnil. lia. }
    rewrite (decode_bits_filled (ssz_pack bs)) by done.
    rewrite (decode_bits_filled (ssz_pack bs ++ extra));
      [|done|by intros [? _]%app_eq_nil].
    rewrite fmap_app, concat_app. f_equal.
    apply take_app_le.
    rewrite length_concat_byte_bits, length_ssz_pack.
    pose proof (Nat.div_mod_eq (length bs) 8).
    pose proof (Nat.mod_upper_bound (length bs) 8 ltac:(lia)). lia.
  - intros ->. rewrite decode_bits_nothing by by left. done.
Qed.

Lemma decode_bits_round_trip_witness :
  truthy <$> decode_bits (ssz_pack [true; false; true] ++ [255])
               (length [true; false; true])
  = [true; false; true].
Proof.
  by apply (proj1 (decode_bits_round_trip [true; false; true] [255])).
Defined.

(** ** The order of attestations with equal inclusion slots *)

Section Ties.

Context (cursor : Cursor) (slot : Z) (committee_lookup : list (list Z)).

Lemma tables_eq perf1 perf2 :
  same_shape committee_lookup perf1 → same_shape committee_lookup perf2 →
  (∀ i pos, cell perf1 i pos = cell perf2 i pos) →
  perf1 = perf2.
Proof.
  intros Hs1 Hs2 Hcell. apply list_eq. intros i.
  destruct (committee_lookup !! i) as [c|] eqn:Hc.
  - destruct (Forall2_lookup_l _ _ _ _ _ Hs1 Hc) as (r1 & Hr1 & Hl1).
    destruct (Forall2_lookup_l _ _ _ _ _ Hs2 Hc) as (r2 & Hr2 & Hl2).
    rewrite Hr1, Hr2. f_equal.
    apply list_eq. intros pos.
    specialize (Hcell i pos). unfold cell in Hcell.
    by rewrite Hr1, Hr2 in Hcell.
  - apply lookup_ge_None in Hc.
    rewrite !(proj2 (lookup_ge_None _ _)); [done|..].
    + rewrite <- (Forall2_length _ _ _ Hs2). done.
    + rewrite <- (Forall2_length _ _ _ Hs1). done.
Qed.

Lemma StronglySorted_hits i pos atts :
  StronglySorted (λ a b, f_inclusion_slot a ≤ f_inclusion_slot b) atts →
  StronglySorted (λ a b, f_inclusion_slot a ≤ f_inclusion_slot b)
                 (hits cursor committee_lookup i pos atts).
Proof.
  induction 1 as [|a atts _ IH Hle]; [constructor|].
  rewrite hits_cons.
  destruct (selected cursor a && marks committee_lookup a i pos); [|done].
  constructor; [done|].
  rewrite Forall_forall in Hle. apply Forall_forall.
  intros b [Hb _]%elem_of_hits. by apply Hle.
Qed.

(** Two ascending arrangements of the same attestations offer the same
    sequence of distances to every cell. *)
Lemma distances_of_arrangements i pos atts1 atts2 :
  atts1 ≡ₚ atts2 → ascending atts1 → ascending atts2 →
  inclusion_distance slot <$> hits cursor committee_lookup i pos atts1
  = inclusion_distance slot <$> hits cursor committee_lookup i pos atts2.
Proof.
  intros Hperm Ha1 Ha2.
  assert (Transitive (λ a b : Attestation,
                        f_inclusion_slot a ≤ f_inclusion_slot b))
    by (intros a b c; lia).
  apply Sorted_StronglySorted in Ha1; [|done].
  apply Sorted_StronglySorted in Ha2; [|done].
  apply (StronglySorted_unique_strong Z.le).
  - intros. lia.
  - apply (StronglySorted_fmap _
             (λ a b, f_inclusion_slot a ≤ f_inclusion_slot b) Z.le);
      [|by apply StronglySorted_hits].
    intros a b. unfold inclusion_distance. lia.
  - apply (StronglySorted_fmap _
             (λ a b, f_inclusion_slot a ≤ f_inclusion_slot b) Z.le);
      [|by apply StronglySorted_hits].
    intros a b. unfold inclusion_distance. lia.
  - unfold hits. by rewrite Hperm.
Qed.

End Ties.

(** X7: two ascending arrangements of the same attestations give the same
    outcome, dictionary or failure: the order in which the store hands
    out attestations of equal inclusion slot does not matter. *)
Theorem tie_order_irrelevant (cursor : Cursor) (slot : Z)
    (committee_lookup : list (list Z)) (atts1 atts2 : list Attestation) :
  atts1 ≡ₚ atts2 → ascending atts1 → ascending atts2 →
  performance_over cursor slot committee_lookup atts1
  = performance_over cursor slot committee_lookup atts2.
Proof.
  intros Hperm Ha1 Ha2. unfold performance_over, aggregate.
  destruct (decide (Exists
    (λ a, selected cursor a = true
          ∧ Py.index committee_lookup (f_committee_index a) = None)
    atts1)) as [Hex|Hnex].
  - rewrite (run_raise _ _ _ atts1) by done.
    rewrite Hperm in Hex. by rewrite (run_raise _ _ _ atts2).
  - assert (∀ atts, atts ≡ₚ atts1 →
              Forall (λ a, selected cursor a = true →
                           Py.index committee_lookup (f_committee_index a)
                           ≠ None) atts) as Hres.
    { intros atts Hp. apply Forall_forall. intros a Hin Hsel Hk. apply Hnex.
      apply Exists_exists. exists a. by rewrite <- Hp. }
    destruct (run_ok cursor slot _ atts1 _ (initial_same_shape _)
                (Hres _ (reflexivity _))) as [perf1 Hrun1].
    destruct (run_ok cursor slot _ atts2 _ (initial_same_shape _)
                (Hres _ (symmetry Hperm))) as [perf2 Hrun2].
    rewrite Hrun1, Hrun2. simpl. do 2 f_equal.
    destruct (run_cell _ _ _ _ _ _ (initial_same_shape _) Hrun1)
      as [Hs1 Hc1].
    destruct (run_cell _ _ _ _ _ _ (initial_same_shape _) Hrun2)
      as [Hs2 Hc2].
    apply (tables_eq committee_lookup); [done..|].
    intros i pos.
    by rewrite Hc1, Hc2, (distances_of_arrangements _ _ _ _ _ _ _ Hperm).
Qed.

Lemma tie_order_irrelevant_witness :
  performance_over scenario_store 10 [[7; 9]]
    [vote 0 11 [1] [187]; vote 0 11 [2] [187]]
  = performance_over scenario_store 10 [[7; 9]]
      [vote 0 11 [2] [187]; vote 0 11 [1] [187]].
Proof.
  apply (tie_order_irrelevant scenario_store 10 [[7; 9]]).
  - apply perm_swap.
  - repeat constructor. simpl. lia.
  - repeat constructor. simpl. lia.
Defined.

(** ** Distinct validators *)

Section Distinct.

Lemma dict_absent pairs k : k ∉ pairs.*1 → Py.dict pairs !! k = None.
Proof.
  induction pairs as [|[k' v'] pairs IH] using rev_ind; intros Hk; [done|].
  rewrite fmap_app, not_elem_of_app in Hk. destruct Hk as [Hk Hk'].
  rewrite dict_snoc, lookup_insert_ne; [by apply IH|].
  intros ->. apply Hk'. simpl. apply list_elem_of_here.
Qed.

Lemma dict_size pairs : NoDup pairs.*1 → size (Py.dict pairs) = length pairs.
Proof.
  induction pairs as [|[k v] pairs IH] using rev_ind; intros Hnd; [done|].
  rewrite fmap_app in Hnd. apply NoDup_app in Hnd as (Hnd & Hdisj & _).
  rewrite dict_snoc, map_size_insert_None, IH, length_app by
    (done || (apply dict_absent; intros Hin; apply (Hdisj _ Hin);
              simpl; apply list_elem_of_here)).
  simpl. lia.
Qed.

End Distinct.

(** X8: when no validator is listed twice in the committees of the slot
    and the call returns, the dictionary has exactly one entry per
    committee seat, and the value of the validator at a seat is the cell
    of that seat in the final table. *)
Theorem distinct_validators_one_entry_each (cursor : Cursor) (slot : Z)
    (m : gmap Z Z) :
  NoDup (concat (committees_of cursor slot)) →
  attestation_performance cursor slot = Ok m →
  size m = length (concat (committees_of cursor slot))
  ∧ ∃ perf,
      aggregate cursor slot (committees_of cursor slot)
        (attestations_of cursor slot) = Ok perf
      ∧ ∀ i pos committee v,
          committees_of cursor slot !! i = Some committee →
          committee !! pos = Some v →
          m !! v = cell perf i pos.
Proof.
  intros Hnd Hm.
  destruct (returned_from_table _ _ _ Hm) as (perf & Hrun & ->).
  pose proof (aggregate_same_shape _ _ _ _ _ Hrun) as Hshape.
  pose proof (same_shape_length_concat _ _ Hshape) as Hlen.
  split.
  - unfold flatten_result. rewrite dict_size.
    + rewrite length_zip_with. lia.
    + rewrite fst_zip by lia. done.
  - exists perf. split; [done|].
    intros i pos c v Hc Hv. apply flatten_last_occurrence; [done|].
    by eapply nodup_last_occurrence.
Qed.

Lemma distinct_validators_one_entry_each_witness :
  size ({[ 7 := 1; 9 := -1 ]} : gmap Z Z)
  = length (concat (committees_of scenario_store 10))
  ∧ ∃ perf,
      aggregate scenario_store 10 (committees_of scenario_store 10)
        (attestations_of scenario_store 10) = Ok perf
      ∧ ∀ i pos committee v,
          committees_of scenario_store 10 !! i = Some committee →
          committee !! pos = Some v →
          ({[ 7 := 1; 9 := -1 ]} : gmap Z Z) !! v = cell perf i pos.
Proof.
  apply (distinct_validators_one_entry_each scenario_store 10).
  - simpl. apply NoDup_cons. split; [|apply NoDup_singleton].
    intros H. apply list_elem_of_singleton in H. discriminate.
  - vm_compute. reflexivity.
Defined.

(** ** Attestations included in the slot itself *)

Section Invisible.

Lemma mark_row_sentinel bits row : mark_row (-1) bits row = row.
Proof.
  revert row. induction bits as [|bit bits IH]; intros [|x row]; [done..|].
  simpl. rewrite IH. f_equal.
  destruct (truthy bit); [|done]. simpl. by case_bool_decide.
Qed.

End Invisible.

(** X9: an attestation included in the slot itself, whose committee index
    resolves whenever it is processed, can be removed from the stream
    without changing the outcome of the call: the distance -1 it offers
    is the sentinel, so it leaves every cell as it finds it. *)
Theorem included_in_slot_invisible (cursor : Cursor) (slot : Z)
    (committee_lookup : list (list Z)) (before : list Attestation)
    (a : Attestation) (after : list Attestation) :
  f_inclusion_slot a = slot →
  (selected cursor a = true →
   Py.index committee_lookup (f_committee_index a) ≠ None) →
  performance_over cursor slot committee_lookup (before ++ a :: after)
  = performance_over cursor slot committee_lookup (before ++ after).
Proof.
  intros Hslot Hres. unfold performance_over, aggregate.
  rewrite !for_each_app.
  destruct (for_each _ _ before) as [perf|] eqn:Hrun; [|done].
  destruct (run_cell _ _ _ _ _ _ (initial_same_shape _) Hrun) as [Hshape _].
  cbn [mbind result_bind for_each].
  assert (record_attestation cursor slot committee_lookup perf a = Ok perf)
    as ->; [|done].
  destruct (selected cursor a) eqn:Hsel;
    [|by apply record_attestation_skip].
  destruct (Py.index committee_lookup (f_committee_index a)) as [k|] eqn:Hk;
    [|by destruct Hres].
  destruct (lookup_lt_is_Some_2 committee_lookup k) as [c Hc];
    [by eapply index_lt|].
  destruct (Forall2_lookup_l _ _ _ _ _ Hshape Hc) as (row & Hrow & Hsize).
  rewrite (record_attestation_marked _ _ _ _ _ _ _ _ Hsel Hk Hc Hrow);
    [|by eapply Forall2_length|done].
  assert (inclusion_distance slot a = -1) as ->
    by (unfold inclusion_distance; lia).
  by rewrite mark_row_sentinel, list_insert_id.
Qed.

Lemma included_in_slot_invisible_witness :
  performance_over sentinel_store 10 [[7]]
    ([] ++ vote 0 10 [3] [187] :: [vote 0 13 [3] [187]])
  = performance_over sentinel_store 10 [[7]] ([] ++ [vote 0 13 [3] [187]]).
Proof.
  apply (included_in_slot_invisible sentinel_store 10 [[7]] []).
  - reflexivity.
  - intros _. vm_compute. discriminate.
Defined.
